(** * Prime spirals in 3D: the geometry, projection and interaction core

    A shallow embedding of [src/App.tsx]: the prime sieve, the four
    coordinate generators, the projector, the scene builder and the pointer
    and wheel handlers of [Canvas3D], with the properties stated about them.

    Conventions of the embedding.
    - JavaScript numbers that hold integers (the bound [N], indices, the block
      size) are [Z]; numbers that hold coordinates, angles and zoom factors are
      real numbers [R], i.e. arithmetic is exact and there is no NaN, no
      infinity and no rounding.
    - [for] loops are run by [for_loop], which carries an explicit iteration
      budget and answers [None] when the budget is exhausted; every caller is
      shown to return [Some].
    - React state ([rotation], [zoom], [isDragging]) and refs ([pointers],
      [lastPos], [pinch]) are the fields of one record that the handlers take
      and return. *)

From Stdlib Require Import ZArith Znumtheory Reals Lra Lia List Sorted.
From stdpp Require Import base list gmap sorting.

Open Scope Z_scope.

(** ** Counted loops *)

(** [for (let i = start; i <= stop; i += step) s = body(i, s)].  The body may
    itself run a loop, hence its [option] result. *)
Fixpoint for_loop {St : Type} (fuel : nat) (i stop step : Z)
    (body : Z -> St -> option St) (s : St) : option St :=
  match fuel with
  | O => None
  | S fuel' =>
      if i <=? stop then
        match body i s with
        | Some s' => for_loop fuel' (i + step) stop step body s'
        | None => None
        end
      else Some s
  end.

(** ** Prime sieve *)

Module Sieve.

(** [sieve[i]] read as a condition: a missing entry is [undefined], falsy. *)
Definition get (sieve : list bool) (i : Z) : bool :=
  default false (sieve !! Z.to_nat i).

(** [sieve[i] = false]. *)
Definition clear (sieve : list bool) (i : Z) : list bool :=
  <[Z.to_nat i := false]> sieve.

(** [for (let i = p * p; i <= limit; i += p) sieve[i] = false]. *)
Definition mark_multiples (fuel : nat) (limit p : Z) (sieve : list bool)
    : option (list bool) :=
  for_loop fuel (p * p) limit p (fun i s => Some (clear s i)) sieve.

(** The body of the outer loop: [if (sieve[p]) for (...) ...]. *)
Definition sieve_step (fuel : nat) (limit p : Z) (sieve : list bool)
    : option (list bool) :=
  if get sieve p then mark_multiples fuel limit p sieve else Some sieve.

(** [sieve.map((isPrime, i) => (isPrime ? i : -1)).filter(n => n > 0)]. *)
Definition collect (sieve : list bool) : list Z :=
  filter (fun n => 0 < n)
         (imap (fun i (isPrime : bool) => if isPrime then Z.of_nat i else -1) sieve).

(** [sievePrimes(limit)].  [Math.floor(Math.sqrt(limit))] is the integer
    square root (see [floor_sqrt]).  Neither loop runs more than [limit]
    times, so a budget of [limit + 1] tests of the loop condition is enough. *)
Definition sievePrimes (limit : Z) : option (list Z) :=
  if limit <? 2 then Some []
  else
    let sieve := replicate (Z.to_nat (limit + 1)) true in
    let sieve := clear (clear sieve 1) 0 in
    let upper := Z.sqrt limit in
    let fuel := S (Z.to_nat limit) in
    match for_loop fuel 2 upper 1 (sieve_step fuel limit) sieve with
    | Some sieve => Some (collect sieve)
    | None => None
    end.

(** Trial division, as the specification words primality: no [d] in
    [2 .. floor(sqrt n)] divides [n]. *)
Definition trial_prime (n : Z) : Prop :=
  forall d, 2 <= d <= Z.sqrt n -> ~ (d | n).

(** Divisibility is decidable, by the remainder. *)
#[export] Instance divide_decision (a b : Z) : Decision (a | b).
Proof.
  refine (match (b =? 0) || negb (a =? 0) && (b mod a =? 0) as c
                return BoolSpec (a | b) (~ (a | b)) c -> Decision (a | b) with
          | true => fun H => left _
          | false => fun H => right _
          end (Z.BoolSpec_divide a b)); inversion H; assumption.
Defined.

(** The same test as a program. *)
Definition trial_primeb (n : Z) : bool :=
  forallb (fun d => negb (n mod d =? 0)) (seqZ 2 (Z.sqrt n - 1)).

(** What the outer loop has established when it reaches [p]: the entries
    still marked are the [n >= 2] without a divisor [d < p] with
    [d * d <= n]. *)
Definition sieved (limit p : Z) (t : list bool) : Prop :=
  2 <= p /\ (p - 1) * (p - 1) <= limit /\ length t = Z.to_nat (limit + 1) /\
  forall n, 0 <= n <= limit ->
    (get t n = true <-> 2 <= n /\ forall d, 2 <= d < p -> (d | n) -> n < d * d).

End Sieve.

(** ** Geometry generators *)

Module Geometry.

(** [interface Point3D { n; x; y; z }]. *)
Record Point3D : Type := mkPoint3D { pt_n : Z; pt_x : R; pt_y : R; pt_z : R }.

(** [points.push(p)]. *)
Definition push {A : Type} (points : list A) (p : A) : list A := points ++ [p].

(** The loop shared by the four generators:
    [for (let n = 1; n <= N; n++) points.push(point(n))], started on the
    empty array.  It tests its condition [N + 1] times when [0 <= N] and once
    otherwise. *)
Definition generate (N : Z) (point : Z -> Point3D) : option (list Point3D) :=
  for_loop (S (Z.to_nat N)) 1 N 1 (fun n points => Some (push points (point n))) [].

Definition helixPoint (stepAngle radius pitch : R) (n : Z) : Point3D :=
  let t := (IZR n * stepAngle)%R in
  {| pt_n := n; pt_x := radius * cos t; pt_y := radius * sin t; pt_z := pitch * t |}.

Definition coordsHelix (N : Z) (stepAngle radius pitch : R) : option (list Point3D) :=
  generate N (helixPoint stepAngle radius pitch).

Definition sphericalPoint (N : Z) (stepAngle : R) (n : Z) : Point3D :=
  let z := (2 * (IZR n - 1) / Rmax (IZR N - 1) 1 - 1)%R in
  let r := sqrt (Rmax 0 (1 - z * z)) in
  let theta := (IZR n * stepAngle)%R in
  {| pt_n := n; pt_x := r * cos theta; pt_y := r * sin theta; pt_z := z |}.

Definition coordsSphericalSpiral (N : Z) (stepAngle : R) : option (list Point3D) :=
  generate N (sphericalPoint N stepAngle).

Definition conicalPoint (stepAngle a b c : R) (n : Z) : Point3D :=
  let t := (IZR n * stepAngle)%R in
  let r := (a + b * t)%R in
  {| pt_n := n; pt_x := r * cos t; pt_y := r * sin t; pt_z := c * t |}.

Definition coordsConicalArchimedean (N : Z) (stepAngle a b c : R)
    : option (list Point3D) :=
  generate N (conicalPoint stepAngle a b c).

(** [const safe = Math.max(blockSize, 1)]; the block size is an integer. *)
Definition safeBlock (blockSize : Z) : Z := Z.max blockSize 1.

(** [Math.floor((n - 1) / safe)]: the floor of the quotient is [Z.div] for a
    positive divisor (see [floor_quotient]). *)
Definition layerOf (safe n : Z) : Z := (n - 1) / safe.

(** [(n - 1) % safe]: the remainder of JavaScript has the sign of the
    dividend, as [Z.rem]. *)
Definition idxInLayerOf (safe n : Z) : Z := Z.rem (n - 1) safe.

Definition layeredPoint (safe : Z) (layerRadius stepAngle : R) (n : Z) : Point3D :=
  let layer := layerOf safe n in
  let idxInLayer := idxInLayerOf safe n in
  let theta := (IZR idxInLayer * stepAngle)%R in
  {| pt_n := n; pt_x := layerRadius * cos theta; pt_y := layerRadius * sin theta;
     pt_z := IZR layer |}.

Definition coordsLayeredTime (N blockSize : Z) (layerRadius stepAngle : R)
    : option (list Point3D) :=
  let safe := safeBlock blockSize in
  generate N (layeredPoint safe layerRadius stepAngle).

(** The [switch (mode)] of [App]. *)
Inductive Mode : Type := helix | spherical | conical | layered.

Record Params : Type := mkParams {
  stepAngle : R; radius : R; pitch : R;
  coef_a : R; coef_b : R; coef_c : R;
  blockSize : Z; layerRadius : R }.

Definition points (mode : Mode) (N : Z) (q : Params) : option (list Point3D) :=
  match mode with
  | helix => coordsHelix N (stepAngle q) (radius q) (pitch q)
  | spherical => coordsSphericalSpiral N (stepAngle q)
  | conical => coordsConicalArchimedean N (stepAngle q) (coef_a q) (coef_b q) (coef_c q)
  | layered => coordsLayeredTime N (blockSize q) (layerRadius q) (stepAngle q)
  end.

End Geometry.

(** ** Projector *)

Module Projector.

(** [rotation: { x; y }] and [zoom], the camera state owned by [App]. *)
Record Rotation : Type := mkRotation { rot_x : R; rot_y : R }.

(** The argument of [project]: [{ x; y; z }]. *)
Record Vec3 : Type := mkVec3 { v_x : R; v_y : R; v_z : R }.

(** The result of [project]: [{ x; y; z; p }]. *)
Record Projection : Type := mkProjection { pr_x : R; pr_y : R; pr_z : R; pr_p : R }.

Definition project (width height : R) (rotation : Rotation) (zoom : R)
    (perspective : bool) (pt : Vec3) : Projection :=
  let cx := (width / 2)%R in
  let cy := (height / 2)%R in
  let scale := (Rmin width height * 0.12 * zoom)%R in
  let cosX := cos (rot_x rotation) in
  let sinX := sin (rot_x rotation) in
  let cosY := cos (rot_y rotation) in
  let sinY := sin (rot_y rotation) in
  let y1 := (v_y pt * cosX - v_z pt * sinX)%R in
  let z1 := (v_y pt * sinX + v_z pt * cosX)%R in
  let x2 := (v_x pt * cosY + z1 * sinY)%R in
  let z2 := (- v_x pt * sinY + z1 * cosY)%R in
  let persp := if perspective then (1 / (1 + z2 * 0.1))%R else 1%R in
  {| pr_x := cx + x2 * scale * persp; pr_y := cy + y1 * scale * persp;
     pr_z := z2; pr_p := persp |}.

End Projector.

(** ** Scene builder *)

Module Scene.
Import Geometry Projector.

(** An element of [arr] in [projected]: [{ x; y; z; n; r; prime }]. *)
Record Dot : Type := mkDot {
  dot_x : R; dot_y : R; dot_z : R; dot_n : Z; dot_r : R; dot_prime : bool }.

(** [Array.prototype.sort(cmp)] is a stable sort: [a] is placed before [b]
    when [cmp(a, b) < 0], and elements that compare equal keep their order.
    It is run here as an insertion sort, each element entering in front of the
    first element it does not exceed. *)
Fixpoint sort_insert {A : Type} (cmp : A -> A -> R) (a : A) (l : list A) : list A :=
  match l with
  | [] => [a]
  | b :: l' =>
      if Rle_dec (cmp a b) 0 then a :: b :: l' else b :: sort_insert cmp a l'
  end.

Fixpoint array_sort {A : Type} (cmp : A -> A -> R) (l : list A) : list A :=
  match l with
  | [] => []
  | a :: l' => sort_insert cmp a (array_sort cmp l')
  end.

(** Non-decreasing order of a key, every element against every later one. *)
Definition ascending {A : Type} (key : A -> R) : list A -> Prop :=
  StronglySorted (fun a b => (key a <= key b)%R).

(** A [Point3D] passed where [{ x; y; z }] is expected. *)
Definition coords (p : Point3D) : Vec3 :=
  {| v_x := pt_x p; v_y := pt_y p; v_z := pt_z p |}.

(** The element pushed for a point [p] that is kept:
    [{ x: pr.x, y: pr.y, z: pr.z, n: p.n, r, prime }]. *)
Definition dot (primes : gset Z) (dotSize width height : R) (rotation : Rotation)
    (zoom : R) (perspective : bool) (p : Point3D) : Dot :=
  let prime := bool_decide (pt_n p ∈ primes) in
  let pr := project width height rotation zoom perspective (coords p) in
  let r := Rmax 1 (dotSize * pr_p pr) in
  {| dot_x := pr_x pr; dot_y := pr_y pr; dot_z := pr_z pr;
     dot_n := pt_n p; dot_r := r; dot_prime := prime |}.

(** The body of [for (const p of points)] in [projected]:
    [if (!prime && !showAllNumbers) continue;] and then the push. *)
Definition visit (primes : gset Z) (dotSize width height : R) (rotation : Rotation)
    (zoom : R) (showAllNumbers perspective : bool)
    (arr : list Dot) (p : Point3D) : list Dot :=
  let prime := bool_decide (pt_n p ∈ primes) in
  if negb prime && negb showAllNumbers then arr
  else push arr (dot primes dotSize width height rotation zoom perspective p).

(** The [projected] memo of [Canvas3D]. *)
Definition projected (points : list Point3D) (primes : gset Z)
    (dotSize width height : R) (rotation : Rotation) (zoom : R)
    (showAllNumbers perspective : bool) : list Dot :=
  let arr :=
    foldl (visit primes dotSize width height rotation zoom showAllNumbers perspective)
          [] points in
  array_sort (fun a b => (dot_z a - dot_z b)%R) arr.

End Scene.

(** ** Interaction controller *)

Module Interaction.
Import Projector.

(** A pointer position [{ x; y }] in client coordinates. *)
Record Pos : Type := mkPos { pos_x : R; pos_y : R }.

(** The pinch baseline [{ startDist; startZoom }]. *)
Record Pinch : Type := mkPinch { startDist : R; startZoom : R }.

(** [pointers] is a [Map<number, {x, y}>]: it iterates in insertion order, and
    setting a key it already holds keeps that key's place. *)
Definition PointerMap : Type := list (Z * Pos).

Fixpoint map_set (m : PointerMap) (k : Z) (v : Pos) : PointerMap :=
  match m with
  | [] => [(k, v)]
  | (k', v') :: m' => if k =? k' then (k, v) :: m' else (k', v') :: map_set m' k v
  end.

Definition map_has (m : PointerMap) (k : Z) : bool :=
  existsb (fun kv => k =? fst kv) m.

Definition map_delete (m : PointerMap) (k : Z) : PointerMap :=
  filter (fun kv => k <> fst kv) m.

Definition map_size (m : PointerMap) : Z := Z.of_nat (length m).

Definition map_values (m : PointerMap) : list Pos := map snd m.

(** [Math.hypot(dx, dy)]. *)
Definition hypot (dx dy : R) : R := sqrt (dx * dx + dy * dy).

(** The state the handlers of [Canvas3D] read and write: the camera state
    ([rotation], [zoom]), the [isDragging] state and the refs [lastPos],
    [pointers] and [pinch] ([None] is [null]). *)
Record State : Type := mkState {
  rotation : Rotation;
  zoom : R;
  isDragging : bool;
  lastPos : Pos;
  pointers : PointerMap;
  pinch : option Pinch }.

Definition onPointerDown (s : State) (pointerId : Z) (client : Pos) : State :=
  let pointers' := map_set (pointers s) pointerId client in
  if map_size pointers' =? 1 then
    {| rotation := rotation s; zoom := zoom s; isDragging := true;
       lastPos := client; pointers := pointers'; pinch := pinch s |}
  else if map_size pointers' =? 2 then
    match map_values pointers' with
    | a :: b :: _ =>
        let dx := (pos_x a - pos_x b)%R in
        let dy := (pos_y a - pos_y b)%R in
        {| rotation := rotation s; zoom := zoom s; isDragging := isDragging s;
           lastPos := lastPos s; pointers := pointers';
           pinch := Some {| startDist := hypot dx dy; startZoom := zoom s |} |}
    | _ =>
        {| rotation := rotation s; zoom := zoom s; isDragging := isDragging s;
           lastPos := lastPos s; pointers := pointers'; pinch := pinch s |}
    end
  else
    {| rotation := rotation s; zoom := zoom s; isDragging := isDragging s;
       lastPos := lastPos s; pointers := pointers'; pinch := pinch s |}.

Definition onPointerMove (s : State) (pointerId : Z) (client : Pos) : State :=
  if negb (map_has (pointers s) pointerId) then s
  else
    let pointers' := map_set (pointers s) pointerId client in
    if (map_size pointers' =? 1) && isDragging s then
      let dx := (pos_x client - pos_x (lastPos s))%R in
      let dy := (pos_y client - pos_y (lastPos s))%R in
      {| rotation := {| rot_x := rot_x (rotation s) + dy * 0.01;
                        rot_y := rot_y (rotation s) + dx * 0.01 |};
         zoom := zoom s; isDragging := isDragging s;
         lastPos := client; pointers := pointers'; pinch := pinch s |}
    else
      match map_size pointers' =? 2, pinch s, map_values pointers' with
      | true, Some base, a :: b :: _ =>
          let dx := (pos_x a - pos_x b)%R in
          let dy := (pos_y a - pos_y b)%R in
          let dist := hypot dx dy in
          let factor := (dist / Rmax 1 (startDist base))%R in
          {| rotation := rotation s;
             zoom := Rmax 0.1 (Rmin 5 (startZoom base * factor));
             isDragging := isDragging s;
             lastPos := lastPos s; pointers := pointers'; pinch := pinch s |}
      | _, _, _ =>
          {| rotation := rotation s; zoom := zoom s; isDragging := isDragging s;
             lastPos := lastPos s; pointers := pointers'; pinch := pinch s |}
      end.

Definition onPointerUp (s : State) (pointerId : Z) : State :=
  let pointers' := map_delete (pointers s) pointerId in
  {| rotation := rotation s; zoom := zoom s;
     isDragging := if map_size pointers' =? 0 then false else isDragging s;
     lastPos := lastPos s; pointers := pointers';
     pinch := if map_size pointers' <? 2 then None else pinch s |}.

Definition onWheel (s : State) (deltaY : R) (ctrlKey : bool) : State :=
  let k := if ctrlKey then 0.0025%R else 0.001%R in
  {| rotation := rotation s;
     zoom := Rmax 0.1 (Rmin 5 (zoom s + (- deltaY) * k));
     isDragging := isDragging s; lastPos := lastPos s;
     pointers := pointers s; pinch := pinch s |}.

(** The events the [svg] element delivers to the handlers; [onPointerCancel]
    is bound to [onPointerUp]. *)
Inductive Event : Type :=
  | PointerDown (pointerId : Z) (client : Pos)
  | PointerMove (pointerId : Z) (client : Pos)
  | PointerUp (pointerId : Z)
  | PointerCancel (pointerId : Z)
  | Wheel (deltaY : R) (ctrlKey : bool).

Definition handle (s : State) (e : Event) : State :=
  match e with
  | PointerDown i c => onPointerDown s i c
  | PointerMove i c => onPointerMove s i c
  | PointerUp i => onPointerUp s i
  | PointerCancel i => onPointerUp s i
  | Wheel d c => onWheel s d c
  end.

(** The state of a freshly mounted view: [useState({ x: 0, y: 0 })],
    [useState(1)], [useState(false)], [useRef({ x: 0, y: 0 })], an empty
    [Map] and [useRef(null)]. *)
Definition initial : State :=
  {| rotation := {| rot_x := 0; rot_y := 0 |}; zoom := 1; isDragging := false;
     lastPos := {| pos_x := 0; pos_y := 0 |}; pointers := []; pinch := None |}.

(** The state after a sequence of events, handled in order. *)
Definition run (s : State) (events : list Event) : State := foldl handle s events.

(** [clamp(v, lo, hi)], the specification's name for
    [Math.max(lo, Math.min(hi, v))]. *)
Definition clamp (v lo hi : R) : R := Rmax lo (Rmin hi v).

(** The distance between the first two contacts of a pointer map. *)
Definition contactDistance (m : PointerMap) : R :=
  match map_values m with
  | a :: b :: _ => hypot (pos_x a - pos_x b) (pos_y a - pos_y b)
  | _ => 0
  end.

End Interaction.

(** ** Overlay, statistics, animation clock and control bar *)

Module Overlay.
Import Geometry Projector Scene.

(** The label of an axis line. *)
Inductive AxisLabel : Type := AxisX | AxisY | AxisZ.

(** An element of [lines] in the [axes] memo: [{ a; b; label; end }]. *)
Record AxisLine : Type := mkAxisLine {
  ax_a : Projection; ax_b : Projection; ax_label : AxisLabel; ax_end : Projection }.

(** The [axes] memo of [Canvas3D]; [None] is [null], and [L = 8] is the
    half-length of an axis in world units. *)
Definition axes (showAxes : bool) (width height : R) (rotation : Rotation) (zoom : R)
    (perspective : bool) : option (list AxisLine) :=
  if negb showAxes then None
  else
    let L := 8%R in
    let project := project width height rotation zoom perspective in
    Some [ {| ax_a := project (mkVec3 (- L) 0 0); ax_b := project (mkVec3 L 0 0);
              ax_label := AxisX; ax_end := project (mkVec3 L 0 0) |};
           {| ax_a := project (mkVec3 0 (- L) 0); ax_b := project (mkVec3 0 L 0);
              ax_label := AxisY; ax_end := project (mkVec3 0 L 0) |};
           {| ax_a := project (mkVec3 0 0 (- L)); ax_b := project (mkVec3 0 0 L);
              ax_label := AxisZ; ax_end := project (mkVec3 0 0 L) |} ].

(** The overlay [Primes: {projected.filter(p => p.prime).length} / {points.length}]. *)
Definition primesShown (projected : list Dot) : nat :=
  length (filter (fun p => dot_prime p = true) projected).

Definition pointsTotal (points : list Point3D) : nat := length points.

(** [const primes = useMemo(() => new Set(sievePrimes(N)), [N])]. *)
Definition primes (N : Z) : option (gset Z) :=
  match Sieve.sievePrimes N with
  | Some l => Some (list_to_set l)
  | None => None
  end.

(** The [Density] line of the statistics: [(primes.size / N) * 100]. *)
Definition density (primes : gset Z) (N : Z) : R :=
  (IZR (Z.of_nat (size primes)) / IZR N * 100)%R.

End Overlay.

Module Animation.
Import Projector.

(** One call of [tick(t)] in the animation effect: [dt = Math.min(32, t - last)],
    [last = t], and the rotation advances when [isAnimating] is set.  The
    result is the new [last] and the new rotation. *)
Definition tick (isAnimating : bool) (animationSpeed : R)
    (clock : R * Rotation) (t : R) : R * Rotation :=
  let (last, rotation) := clock in
  let dt := Rmin 32 (t - last) in
  (t, if isAnimating then
        {| rot_x := rot_x rotation + 0.001 * animationSpeed * dt;
           rot_y := rot_y rotation + 0.0005 * animationSpeed * dt |}
      else rotation).

(** The frames delivered at the times [ts], in order. *)
Definition frames (isAnimating : bool) (animationSpeed : R)
    (clock : R * Rotation) (ts : list R) : R * Rotation :=
  foldl (tick isAnimating animationSpeed) clock ts.

End Animation.

Module Controls.
Import Projector Interaction.

Definition ROT_STEP : R := 0.12.
Definition ZOOM_STEP : R := 0.15.

Definition withZoom (s : State) (z : R) : State :=
  {| rotation := rotation s; zoom := z; isDragging := isDragging s;
     lastPos := lastPos s; pointers := pointers s; pinch := pinch s |}.

Definition withRotation (s : State) (r : Rotation) : State :=
  {| rotation := r; zoom := zoom s; isDragging := isDragging s;
     lastPos := lastPos s; pointers := pointers s; pinch := pinch s |}.

(** [setZoom(z => Math.min(5, z + ZOOM_STEP))]. *)
Definition zoomIn (s : State) : State := withZoom s (Rmin 5 (zoom s + ZOOM_STEP)).

(** [setZoom(z => Math.max(0.1, z - ZOOM_STEP))]. *)
Definition zoomOut (s : State) : State := withZoom s (Rmax 0.1 (zoom s - ZOOM_STEP)).

(** [setRotation(r => ({ ...r, y: r.y - ROT_STEP }))] and its three siblings. *)
Definition rotateLeft (s : State) : State :=
  withRotation s {| rot_x := rot_x (rotation s); rot_y := rot_y (rotation s) - ROT_STEP |}.
Definition rotateRight (s : State) : State :=
  withRotation s {| rot_x := rot_x (rotation s); rot_y := rot_y (rotation s) + ROT_STEP |}.
Definition rotateUp (s : State) : State :=
  withRotation s {| rot_x := rot_x (rotation s) - ROT_STEP; rot_y := rot_y (rotation s) |}.
Definition rotateDown (s : State) : State :=
  withRotation s {| rot_x := rot_x (rotation s) + ROT_STEP; rot_y := rot_y (rotation s) |}.

(** The reset: [setRotation({ x: 0, y: 0 }); setZoom(1)], done by the reset
    button (which also stops the animation and bumps [resetKey]) and again by
    the effect on [resetSignal].  The refs [pointers], [lastPos] and [pinch]
    and the [isDragging] state are not written. *)
Definition resetView (s : State) : State :=
  withZoom (withRotation s {| rot_x := 0; rot_y := 0 |}) 1.

(** What the user can do to the camera: an event on the view, or a button of
    the control bar. *)
Inductive Action : Type :=
  | OnView (e : Event)
  | ZoomInButton | ZoomOutButton
  | LeftButton | RightButton | UpButton | DownButton
  | ResetButton.

Definition act (s : State) (a : Action) : State :=
  match a with
  | OnView e => handle s e
  | ZoomInButton => zoomIn s
  | ZoomOutButton => zoomOut s
  | LeftButton => rotateLeft s
  | RightButton => rotateRight s
  | UpButton => rotateUp s
  | DownButton => rotateDown s
  | ResetButton => resetView s
  end.

Definition session (s : State) (actions : list Action) : State := foldl act s actions.

(** How the gesture bookkeeping hangs together: no pointer id is tracked
    twice, [isDragging] is set exactly while a contact is tracked, and a pinch
    baseline is held only while at least two contacts are tracked. *)
Definition consistent (s : State) : Prop :=
  NoDup (fst <$> pointers s) /\
  (isDragging s = true <-> pointers s <> []) /\
  (pinch s <> None -> 2 <= map_size (pointers s)).

End Controls.

(** * Properties *)

(** ** Loops *)

Section ForLoop.
Context {St : Type}.
Variables (stop step : Z) (body : Z -> St -> option St).
Hypothesis step_pos : 0 < step.

(** A loop invariant [I i s] that the body carries from [i] to [i + step]
    holds, past [stop], of the state the loop returns; the loop does return
    when its budget exceeds the distance left to [stop]. *)
Lemma for_loop_invariant (I : Z -> St -> Prop) :
  (forall i s, i <= stop -> I i s -> exists s', body i s = Some s' /\ I (i + step) s') ->
  forall fuel i s,
    Z.max 0 (stop + 1 - i) < Z.of_nat fuel -> I i s ->
    exists s' j, for_loop fuel i stop step body s = Some s' /\ stop < j /\ I j s'.
Proof.
  intros Hbody fuel.
  induction fuel as [|fuel IH]; intros i s Hfuel Hinv; [lia|].
  simpl. destruct (Z.leb_spec i stop) as [Hle|Hgt].
  - destruct (Hbody i s Hle Hinv) as (s' & -> & Hinv').
    apply IH; [lia | exact Hinv'].
  - exists s, i. auto.
Qed.

End ForLoop.

(** ** Prime sieve *)

Section SieveProofs.
Import Sieve.

Lemma get_clear_same (s : list bool) (i : Z) : get (clear s i) i = false.
Proof.
  unfold get, clear.
  destruct (decide (Z.to_nat i < length s)%nat) as [Hlt|Hge].
  - by rewrite list_lookup_insert_eq.
  - rewrite list_insert_ge by lia. by rewrite lookup_ge_None_2 by lia.
Qed.

Lemma get_clear_other (s : list bool) (i j : Z) :
  0 <= i -> 0 <= j -> i <> j -> get (clear s i) j = get s j.
Proof.
  intros Hi Hj Hne. unfold get, clear.
  rewrite list_lookup_insert_ne; [done | lia].
Qed.

Lemma get_clear_false (s : list bool) (i j : Z) :
  0 <= i -> 0 <= j -> get s j = false -> get (clear s i) j = false.
Proof.
  intros Hi Hj Hf. destruct (decide (i = j)) as [->|Hne].
  - apply get_clear_same.
  - by rewrite get_clear_other.
Qed.

Lemma get_replicate (len : nat) (i : Z) :
  0 <= i < Z.of_nat len -> get (replicate len true) i = true.
Proof.
  intros Hi. unfold get. by rewrite lookup_replicate_2 by lia.
Qed.

Lemma get_true_lt (s : list bool) (i : Z) :
  0 <= i -> get s i = true -> i < Z.of_nat (length s).
Proof.
  intros Hi. unfold get.
  destruct (s !! Z.to_nat i) eqn:E; [|done].
  apply lookup_lt_Some in E. lia.
Qed.

Lemma length_clear (s : list bool) (i : Z) : length (clear s i) = length s.
Proof. apply length_insert. Qed.

(** Two multiples of [p] less than [p] apart are equal. *)
Lemma multiples_close (p j n : Z) :
  0 < p -> (p | j) -> (p | n) -> j <= n < j + p -> n = j.
Proof.
  intros Hp [a ->] [b ->] H. assert (b = a) by nia. by subst.
Qed.

(** The inner loop clears exactly the multiples of [p] from [p * p] to
    [limit], and returns. *)
Lemma mark_multiples_spec (limit p : Z) (s : list bool) :
  0 < p -> 0 <= limit ->
  exists s', mark_multiples (S (Z.to_nat limit)) limit p s = Some s' /\
    length s' = length s /\
    forall n, 0 <= n <= limit ->
      get s' n = if decide (p * p <= n /\ (p | n)) then false else get s n.
Proof.
  intros Hp Hlimit. unfold mark_multiples.
  set (I := fun (j : Z) (t : list bool) =>
    (p | j) /\ p * p <= j /\ length t = length s /\
    forall n, 0 <= n ->
      get t n = if decide (p * p <= n < j /\ (p | n)) then false else get s n).
  destruct (for_loop_invariant limit p (fun i t => Some (clear t i)) Hp I)
    with (fuel := S (Z.to_nat limit)) (i := p * p) (s := s)
    as (s' & j & Hrun & Hj & Hdiv & Hpp & Hlen & Hget).
  - intros i t Hi (Hdiv & Hpp & Hlen & Hget).
    eexists; split; [reflexivity|]. unfold I.
    split; [apply Z.divide_add_r; [done | apply Z.divide_refl]|].
    split; [lia|]. split; [by rewrite length_clear|].
    intros n Hn. specialize (Hget n Hn).
    destruct (decide (n = i)) as [->|Hne].
    + rewrite get_clear_same. rewrite decide_True; [done | split; [lia | done]].
    + rewrite get_clear_other by lia. rewrite Hget.
      destruct (decide (p * p <= n < i /\ (p | n))) as [Hin|Hout].
      * rewrite decide_True; [done | split; [lia | tauto]].
      * destruct (decide (p * p <= n < i + p /\ (p | n))) as [[Hr Hd]|_]; [|done].
        destruct (Z_lt_le_dec n i) as [Hlt|Hge]; [destruct Hout; split; [lia | done]|].
        destruct Hne. apply (multiples_close p); [done | done | done | lia].
  - nia.
  - unfold I. split; [apply Z.divide_factor_l|]. split; [lia|]. split; [done|].
    intros n Hn. rewrite decide_False; [done | lia].
  - exists s'. split; [done|]. split; [done|].
    intros n Hn. rewrite Hget by lia.
    destruct (decide (p * p <= n /\ (p | n))) as [[Hr Hd]|Hout].
    + rewrite decide_True; [done | split; [lia | done]].
    + rewrite decide_False; [done | tauto].
Qed.

(** Below a bound, either every divisor [d] of [n] has [n < d * d] or some
    divisor has [d * d <= n]. *)
Lemma small_divisor_dec (n k : Z) :
  0 <= k ->
  (forall d, 2 <= d < k -> (d | n) -> n < d * d) \/
  (exists d, 2 <= d < k /\ (d | n) /\ d * d <= n).
Proof.
  intros Hk. pattern k. apply natlike_ind; [|clear k Hk|exact Hk].
  - left. lia.
  - intros k Hk [IH|(d & Hd & Hdiv & Hsq)].
    + destruct (decide (2 <= k /\ (k | n) /\ k * k <= n)) as [(? & ? & ?)|Hno].
      * right. exists k. split; [lia | done].
      * left. intros d Hd Hdiv.
        destruct (decide (d = k)) as [->|Hne]; [|apply IH; [lia | done]].
        destruct (Z_lt_le_dec n (k * k)); [done|]. destruct Hno. split; [lia | done].
    + right. exists d. split; [lia | done].
Qed.

Lemma sieve_step_spec (limit p : Z) (t : list bool) :
  p * p <= limit -> sieved limit p t ->
  exists t', sieve_step (S (Z.to_nat limit)) limit p t = Some t' /\
             sieved limit (p + 1) t'.
Proof.
  intros Hpp (Hp & Hlo & Hlen & Hinv). unfold sieve_step.
  destruct (get t p) eqn:Hget.
  - destruct (mark_multiples_spec limit p t) as (t' & -> & Hlen' & Hmark); [lia | nia |].
    exists t'. split; [done|]. split; [lia|]. split; [by replace (p + 1 - 1) with p by lia|].
    split; [congruence|].
    intros n Hn. rewrite Hmark by done.
    destruct (decide (p * p <= n /\ (p | n))) as [[Hr Hd]|Hout].
    + split; [done|]. intros [_ Hall]. specialize (Hall p ltac:(lia) Hd). lia.
    + rewrite Hinv by done. split; intros [Hn2 Hall]; (split; [done|]); intros d Hd Hdiv.
      * destruct (decide (d = p)) as [->|Hne]; [|apply Hall; [lia | done]].
        destruct (Z_lt_le_dec n (p * p)); [done|]. destruct Hout. split; [lia | done].
      * apply Hall; [lia | done].
  - exists t. split; [done|]. split; [lia|]. split; [by replace (p + 1 - 1) with p by lia|].
    split; [done|].
    intros n Hn. rewrite Hinv by done.
    split; intros [Hn2 Hall]; (split; [done|]); intros d Hd Hdiv; [|apply Hall; [lia | done]].
    destruct (decide (d = p)) as [->|Hne]; [|apply Hall; [lia | done]].
    destruct (Z_lt_le_dec n (p * p)) as [|Hge]; [done|exfalso].
    destruct (small_divisor_dec p p) as [Hnone|(d & Hd' & Hdp & Hsq)]; [lia | |].
    + assert (get t p = true) as Htrue by (apply Hinv; [nia | split; [lia | done]]).
      congruence.
    + assert (n < d * d); [|nia].
      apply Hall; [lia|]. by apply Z.divide_trans with p.
Qed.

Lemma elem_of_collect (s : list bool) (n : Z) :
  n ∈ collect s <-> 0 < n /\ get s n = true.
Proof.
  unfold collect, get. rewrite list_elem_of_filter, elem_of_lookup_imap. split.
  - intros (Hpos & i & b & -> & Hi). destruct b; [|lia].
    split; [done|]. by rewrite Nat2Z.id, Hi.
  - intros (Hpos & Hget). split; [done|]. exists (Z.to_nat n), true.
    destruct (s !! Z.to_nat n) as [[]|]; try done. split; [lia | done].
Qed.

(** Entries are collected in increasing order of their index, so none
    appears twice. *)
Lemma collect_from_NoDup (s : list bool) (k : nat) :
  let l := filter (fun n => 0 < n)
             (imap (fun i (b : bool) => if b then Z.of_nat (k + i) else -1) s) in
  NoDup l /\ forall n, n ∈ l -> Z.of_nat k <= n.
Proof.
  revert k. induction s as [|b s IH]; intros k; simpl.
  - split; [constructor | intros n Hn; by apply elem_of_nil in Hn].
  - destruct (IH (S k)) as [Hnd Hge].
    rewrite (imap_ext _ (fun i (b : bool) => if b then Z.of_nat (S k + i) else -1));
      [|intros i [] _; simpl; [f_equal; lia | done]].
    rewrite filter_cons. destruct b; simpl.
    + destruct (decide (0 < Z.of_nat (k + 0))) as [Hpos|Hz].
      * split.
        -- constructor; [|done]. intros Hin. apply Hge in Hin. lia.
        -- intros n [->|Hin]%elem_of_cons; [lia | apply Hge in Hin; lia].
      * split; [done|]. intros n Hin. apply Hge in Hin. lia.
    + split; [exact Hnd|]. intros n Hin. apply Hge in Hin. lia.
Qed.

Lemma collect_NoDup (s : list bool) : NoDup (collect s).
Proof. exact (proj1 (collect_from_NoDup s 0)). Qed.

(** The program [trial_primeb] decides the specification's [trial_prime]. *)
Lemma trial_primeb_spec (n : Z) : trial_primeb n = true <-> trial_prime n.
Proof.
  unfold trial_primeb, trial_prime. rewrite forallb_forall. split.
  - intros H d Hd Hdiv.
    assert (In d (seqZ 2 (Z.sqrt n - 1))) as Hin
      by (apply list_elem_of_In, elem_of_seqZ; lia).
    apply H in Hin. apply Z.mod_divide in Hdiv; [|lia].
    rewrite Hdiv in Hin. done.
  - intros H d [Hd1 Hd2]%list_elem_of_In%elem_of_seqZ.
    apply negb_true_iff, Z.eqb_neq. intros Hmod.
    apply (H d); [lia|]. apply Z.mod_divide; [lia | done].
Qed.

(** [Math.floor(Math.sqrt(limit))] over the reals is the integer square
    root. *)
Lemma floor_sqrt (limit : Z) : 0 <= limit -> Zfloor (sqrt (IZR limit)) = Z.sqrt limit.
Proof.
  intros Hlimit. apply Zfloor_eq.
  destruct (Z.sqrt_spec limit Hlimit) as [Hlo Hhi].
  pose proof (Z.sqrt_nonneg limit) as Hnn.
  apply IZR_le in Hlo. apply IZR_lt in Hhi. apply IZR_le in Hnn.
  unfold Z.succ in Hhi. rewrite mult_IZR in Hlo, Hhi. rewrite plus_IZR in Hhi.
  split.
  - rewrite <- (sqrt_square (IZR (Z.sqrt limit))) by done. by apply sqrt_le_1_alt.
  - rewrite <- (sqrt_square (IZR (Z.sqrt limit) + 1)) by lra. apply sqrt_lt_1_alt.
    split; [apply IZR_le; lia | done].
Qed.

(** The outer loop returns, and leaves marked exactly the numbers that pass
    trial division. *)
Lemma sieve_loop_spec (limit : Z) :
  2 <= limit ->
  let sieve := clear (clear (replicate (Z.to_nat (limit + 1)) true) 1) 0 in
  let fuel := S (Z.to_nat limit) in
  exists t, for_loop fuel 2 (Z.sqrt limit) 1 (sieve_step fuel limit) sieve = Some t /\
    forall n, 0 < n -> (get t n = true <-> 2 <= n <= limit /\ trial_prime n).
Proof.
  intros Hlimit sieve fuel.
  pose proof (Z.sqrt_spec limit ltac:(lia)) as [Hlo Hhi].
  pose proof (Z.sqrt_nonneg limit) as Hnn.
  destruct (for_loop_invariant (Z.sqrt limit) 1 (sieve_step fuel limit) ltac:(lia)
              (sieved limit)) with (fuel := fuel) (i := 2) (s := sieve)
    as (t & j & Hrun & Hj & Hj2 & Hjsq & Hlen & Hinv).
  - intros i s Hi Hs. apply sieve_step_spec; [|done]. destruct Hs as [? _]. nia.
  - unfold fuel. nia.
  - split; [lia|]. split; [lia|].
    split; [unfold sieve; by rewrite !length_clear, length_replicate|].
    intros n Hn. unfold sieve.
    destruct (decide (n = 0)) as [->|Hn0]; [rewrite get_clear_same; split; [done | lia]|].
    rewrite get_clear_other by lia.
    destruct (decide (n = 1)) as [->|Hn1]; [rewrite get_clear_same; split; [done | lia]|].
    rewrite get_clear_other by lia. rewrite get_replicate by lia.
    split; [intros _; split; [lia | intros; lia] | done].
  - assert (j = Z.sqrt limit + 1) as -> by (unfold Z.succ in Hhi; nia).
    exists t. split; [done|]. intros n Hn.
    destruct (Z_le_gt_dec n limit) as [Hle|Hgt].
    + rewrite Hinv by lia.
      pose proof (Z.sqrt_spec n ltac:(lia)) as [Hnlo Hnhi].
      pose proof (Z.sqrt_le_mono n limit Hle) as Hmono.
      split.
      * intros [Hn2 Hall]. split; [lia|]. intros d Hd Hdiv.
        specialize (Hall d ltac:(lia) Hdiv). nia.
      * intros [Hn2 Hprime]. split; [lia|]. intros d Hd Hdiv.
        destruct (Z_lt_le_dec n (d * d)) as [|Hge]; [done|exfalso].
        apply (Hprime d); [|done]. split; [lia|].
        apply Z.sqrt_le_square; lia.
    + split; [|lia]. intros Hget%get_true_lt; lia.
Qed.

(** C1. For every integer [limit], [sievePrimes limit] returns, and returns
    exactly the set of the [n] in [2 .. limit] that no [d] in
    [2 .. floor(sqrt n)] divides, each listed once; for [limit < 2] the
    result is empty. *)
Theorem sievePrimes_trial_division (limit : Z) :
  exists primes, sievePrimes limit = Some primes /\
    NoDup primes /\
    (forall n, n ∈ primes <-> 2 <= n <= limit /\ trial_prime n) /\
    (limit < 2 -> primes = []).
Proof.
  unfold sievePrimes. destruct (Z.ltb_spec limit 2) as [Hlt|Hge].
  - exists []. split; [done|]. split; [constructor|]. split; [|done].
    intros n. split; [by intros ?%elem_of_nil | lia].
  - destruct (sieve_loop_spec limit Hge) as (t & Hrun & Hget).
    cbv zeta in Hrun. rewrite Hrun. exists (collect t).
    split; [done|]. split; [apply collect_NoDup|]. split; [|lia].
    intros n. rewrite elem_of_collect. split.
    + intros [Hpos Ht]. by apply Hget.
    + intros [Hn Hprime]. split; [lia|]. apply Hget; [lia | done].
Qed.

Lemma sievePrimes_trial_division_witness :
  sievePrimes 1 = Some [] /\ sievePrimes 0 = Some [].
Proof.
  split.
  - destruct (sievePrimes_trial_division 1) as (primes & Hrun & _ & _ & Hempty).
    rewrite Hrun, Hempty; [reflexivity | lia].
  - destruct (sievePrimes_trial_division 0) as (primes & Hrun & _ & _ & Hempty).
    rewrite Hrun, Hempty; [reflexivity | lia].
Defined.

End SieveProofs.

(** ** Geometry generators *)

Section GeometryProofs.
Import Geometry.

(** The generator loop returns the points of [1 .. N] in order. *)
Lemma generate_spec (N : Z) (point : Z -> Point3D) :
  generate N point = Some (point <$> seqZ 1 N).
Proof.
  unfold generate.
  destruct (for_loop_invariant N 1 (fun n points => Some (push points (point n)))
              ltac:(lia)
              (fun j acc => 1 <= j <= Z.max N 0 + 1 /\ acc = point <$> seqZ 1 (j - 1)))
    with (fuel := S (Z.to_nat N)) (i := 1) (s := @nil Point3D)
    as (pts & j & Hrun & Hj & Hrange & ->).
  - intros i acc Hi [Hrange ->]. eexists. split; [reflexivity|].
    split; [lia|]. unfold push.
    replace (i + 1 - 1) with ((i - 1) + 1) by lia.
    rewrite seqZ_app by lia. rewrite fmap_app.
    replace (1 + (i - 1)) with i by lia. done.
  - lia.
  - split; [lia | done].
  - rewrite Hrun. f_equal. f_equal.
    destruct (Z_le_gt_dec 0 N); [f_equal; lia|].
    by rewrite !seqZ_nil by lia.
Qed.

Lemma points_spec (mode : Mode) (N : Z) (q : Params) :
  exists point, points mode N q = Some (point <$> seqZ 1 N) /\
                forall n, pt_n (point n) = n.
Proof.
  destruct mode; simpl;
    unfold coordsHelix, coordsSphericalSpiral, coordsConicalArchimedean,
      coordsLayeredTime;
    rewrite generate_spec; eexists; (split; [reflexivity | done]).
Qed.

(** C3. For each of the four modes and every integer [N >= 0], the generator
    returns a sequence of exactly [N] points, empty if and only if [N = 0],
    whose indices are [1, 2, ..., N] in this order: the [k]-th point carries
    [n = k]. *)
Theorem generators_dense (mode : Mode) (N : Z) (q : Params) :
  0 <= N ->
  exists pts, points mode N q = Some pts /\
    Z.of_nat (length pts) = N /\
    (pts = [] <-> N = 0) /\
    pt_n <$> pts = seqZ 1 N /\
    forall k, 1 <= k <= N ->
      exists p, pts !! Z.to_nat (k - 1) = Some p /\ pt_n p = k.
Proof.
  intros HN. destruct (points_spec mode N q) as (point & Hrun & Hn).
  exists (point <$> seqZ 1 N). split; [done|].
  assert (Z.of_nat (length (point <$> seqZ 1 N)) = N) as Hlen
    by (rewrite length_fmap, length_seqZ; lia).
  split; [done|]. split; [|split].
  - split.
    + intros Hnil. rewrite Hnil in Hlen. simpl in Hlen. lia.
    + intros ->. done.
  - rewrite <- list_fmap_compose.
    rewrite (list_fmap_ext (pt_n ∘ point) (@Datatypes.id Z)) by (intros; apply Hn).
    apply list_fmap_id.
  - intros k Hk. exists (point k). split; [|apply Hn].
    rewrite list_lookup_fmap, lookup_seqZ_lt by lia. simpl. f_equal. f_equal. lia.
Qed.

Lemma generators_dense_witness :
  exists pts, points helix 3 (mkParams 0.35 1 0.08 0.8 0.04 0.03 200 6) = Some pts /\
    Z.of_nat (length pts) = 3 /\
    (pts = [] <-> 3 = 0) /\
    pt_n <$> pts = seqZ 1 3 /\
    forall k, 1 <= k <= 3 ->
      exists p, pts !! Z.to_nat (k - 1) = Some p /\ pt_n p = k.
Proof. apply (generators_dense helix 3); lia. Defined.

(** [Math.floor(a / b)] over the reals is [Z.div] for a positive divisor. *)
Lemma floor_quotient (a b : Z) : 0 < b -> Zfloor (IZR a / IZR b) = a / b.
Proof.
  intros Hb. apply Zfloor_eq.
  pose proof (Z.div_mod a b ltac:(lia)) as Hdm.
  pose proof (Z.mod_pos_bound a b Hb) as [Hr0 Hrb].
  assert (0 < IZR b)%R as Hb' by (apply IZR_lt; lia).
  assert (IZR a / IZR b = IZR (a / b) + IZR (a mod b) / IZR b)%R as ->.
  { rewrite Hdm at 1. rewrite plus_IZR, mult_IZR. field. lra. }
  apply IZR_le in Hr0. apply IZR_lt in Hrb.
  assert (0 <= IZR (a mod b) / IZR b < 1)%R; [|lra].
  split.
  - apply Rmult_le_reg_r with (IZR b); [done|].
    unfold Rdiv. rewrite Rmult_assoc, Rinv_l by lra. lra.
  - apply Rmult_lt_reg_r with (IZR b); [done|].
    unfold Rdiv. rewrite Rmult_assoc, Rinv_l by lra. lra.
Qed.


(** On the spherical spiral [x * x + y * y] is the floored radicand. *)
Lemma spherical_radius (N : Z) (stepAngle : R) (n : Z) :
  let p := sphericalPoint N stepAngle n in
  (pt_x p * pt_x p + pt_y p * pt_y p = Rmax 0 (1 - pt_z p * pt_z p))%R.
Proof.
  unfold sphericalPoint. simpl.
  set (radicand := Rmax 0 _). set (theta := (IZR n * stepAngle)%R).
  pose proof (sqrt_sqrt radicand (Rmax_l 0 _)) as Hsq.
  pose proof (sin2_cos2 theta) as Hsc. unfold Rsqr in Hsc.
  transitivity (sqrt radicand * sqrt radicand * (sin theta * sin theta + cos theta * cos theta))%R;
    [lra|]. rewrite Hsc, Hsq. lra.
Qed.



End GeometryProofs.

(** ** Projector *)

Section ProjectorProofs.
Import Projector.

(** C2. [project] computes [scale = min(width, height) * 0.12 * zoom], rotates
    about the X axis and then about the Y axis, takes
    [perspectiveScale = 1 / (1 + z2 * 0.1)] when perspective is enabled and
    [1] otherwise, and returns [screenX = width / 2 + x2 * scale * perspectiveScale],
    [screenY = height / 2 + y1 * scale * perspectiveScale] and [depth = z2].
    With both rotations [0], zoom [1] and perspective disabled this is
    [screenX = width / 2 + x * scale], [screenY = height / 2 + y * scale],
    whatever [z] is. *)
Theorem project_formula (width height : R) (rotation : Rotation) (zoom : R)
    (perspective : bool) (x y z : R) :
  (let scale := (Rmin width height * 0.12 * zoom)%R in
   let y1 := (y * cos (rot_x rotation) - z * sin (rot_x rotation))%R in
   let z1 := (y * sin (rot_x rotation) + z * cos (rot_x rotation))%R in
   let x2 := (x * cos (rot_y rotation) + z1 * sin (rot_y rotation))%R in
   let z2 := (- x * sin (rot_y rotation) + z1 * cos (rot_y rotation))%R in
   let perspectiveScale := if perspective then (1 / (1 + z2 * 0.1))%R else 1%R in
   project width height rotation zoom perspective (mkVec3 x y z) =
     {| pr_x := width / 2 + x2 * scale * perspectiveScale;
        pr_y := height / 2 + y1 * scale * perspectiveScale;
        pr_z := z2; pr_p := perspectiveScale |}) /\
  (let scale := (Rmin width height * 0.12 * 1)%R in
   let flat := project width height (mkRotation 0 0) 1 false in
   pr_x (flat (mkVec3 x y z)) = (width / 2 + x * scale)%R /\
   pr_y (flat (mkVec3 x y z)) = (height / 2 + y * scale)%R /\
   forall z', pr_x (flat (mkVec3 x y z')) = pr_x (flat (mkVec3 x y z)) /\
              pr_y (flat (mkVec3 x y z')) = pr_y (flat (mkVec3 x y z))).
Proof.
  split; [reflexivity|].
  unfold project. simpl. rewrite cos_0, sin_0.
  split; [lra|]. split; [lra|]. intros z'. split; lra.
Qed.

(** C10. The depth that [project] returns is a function of the point and of
    the two rotation angles alone: zoom, viewport and the perspective flag do
    not enter it. *)
Theorem project_depth_independent (rotation : Rotation) (pt : Vec3)
    (width1 height1 zoom1 : R) (perspective1 : bool)
    (width2 height2 zoom2 : R) (perspective2 : bool) :
  pr_z (project width1 height1 rotation zoom1 perspective1 pt) =
  pr_z (project width2 height2 rotation zoom2 perspective2 pt).
Proof. reflexivity. Qed.

(** The reciprocal lies in [[0.1, 5]] exactly for arguments in [[0.2, 10]]. *)
Lemma reciprocal_range (d : R) : (0.2 <= d <= 10 <-> 0.1 <= 1 / d <= 5)%R.
Proof.
  split.
  - intros [Hlo Hhi]. assert (0 < d)%R as Hpos by lra.
    split; apply Rmult_le_reg_r with d; try done;
      unfold Rdiv; rewrite Rmult_assoc, Rinv_l by lra; lra.
  - intros [Hlo Hhi].
    assert (0 < d)%R as Hpos.
    { destruct (Rtotal_order d 0) as [Hneg|[->|Hpos]]; [| |done].
      - apply Rinv_neg in Hneg. unfold Rdiv in Hlo. lra.
      - unfold Rdiv in Hlo. rewrite Rinv_0 in Hlo. lra. }
    assert (1 / d * d = 1)%R as Hone
      by (unfold Rdiv; rewrite Rmult_assoc, Rinv_l by lra; lra).
    split; nra.
Qed.

End ProjectorProofs.

(** ** Scene builder *)

Section SortProofs.
Import Scene.
Context {A : Type}.

Lemma sort_insert_perm (cmp : A -> A -> R) (a : A) (l : list A) :
  sort_insert cmp a l ≡ₚ a :: l.
Proof.
  induction l as [|b l IH]; simpl; [done|].
  destruct (Rle_dec (cmp a b) 0); [done|].
  rewrite IH. apply Permutation_swap.
Qed.

Lemma array_sort_perm (cmp : A -> A -> R) (l : list A) : array_sort cmp l ≡ₚ l.
Proof.
  induction l as [|a l IH]; simpl; [done|].
  by rewrite sort_insert_perm, IH.
Qed.

Variable key : A -> R.

Lemma sort_insert_ascending (a : A) (l : list A) :
  ascending key l -> ascending key (sort_insert (fun a b => (key a - key b)%R) a l).
Proof.
  unfold ascending. induction 1 as [|b l Hsorted IH Hall]; simpl.
  - repeat constructor.
  - destruct (Rle_dec (key a - key b) 0) as [Hle|Hgt].
    + constructor; [by constructor|].
      constructor; [lra|]. eapply Forall_impl; [exact Hall|]. simpl. intros; lra.
    + constructor; [exact IH|].
      rewrite sort_insert_perm. constructor; [lra | exact Hall].
Qed.

Lemma array_sort_ascending (l : list A) :
  ascending key (array_sort (fun a b => (key a - key b)%R) l).
Proof.
  induction l as [|a l IH]; simpl; [constructor|].
  by apply sort_insert_ascending.
Qed.

End SortProofs.

Section SceneProofs.
Import Geometry Projector Scene.
Variables (primes : gset Z) (dotSize width height : R) (rotation : Rotation) (zoom : R).
Variables (showAllNumbers perspective : bool).

(** The loop of [projected] pushes the dots of the kept points, in order. *)
Lemma visit_foldl (points : list Point3D) (arr : list Dot) :
  foldl (visit primes dotSize width height rotation zoom showAllNumbers perspective)
        arr points =
  arr ++ (dot primes dotSize width height rotation zoom perspective <$>
          filter (fun p => showAllNumbers = true \/ pt_n p ∈ primes) points).
Proof.
  revert arr. induction points as [|p points IH]; intros arr; simpl.
  - by rewrite app_nil_r.
  - rewrite IH, filter_cons. unfold visit, push.
    destruct (decide (pt_n p ∈ primes)) as [Hin|Hout].
    + rewrite bool_decide_true by done. cbn [negb andb].
      rewrite decide_True by (by right). by rewrite fmap_cons, <- app_assoc.
    + rewrite bool_decide_false by done. destruct showAllNumbers; cbn [negb andb].
      * rewrite decide_True by (by left). by rewrite fmap_cons, <- app_assoc.
      * rewrite decide_False; [done|]. by intros [?|?].
Qed.

Lemma kept_indices (points : list Point3D) :
  pt_n <$> filter (fun p => showAllNumbers = true \/ pt_n p ∈ primes) points =
  if showAllNumbers then pt_n <$> points
  else filter (fun n => n ∈ primes) (pt_n <$> points).
Proof.
  induction points as [|p points IH]; [by destruct showAllNumbers|].
  rewrite filter_cons, fmap_cons. destruct showAllNumbers.
  - rewrite decide_True by (by left). by rewrite fmap_cons, IH.
  - rewrite filter_cons. destruct (decide (pt_n p ∈ primes)) as [Hin|Hout].
    + rewrite decide_True by (by right). by rewrite fmap_cons, IH.
    + rewrite decide_False by (by intros [?|?]). done.
Qed.

End SceneProofs.

(** C4. The scene builder's output is sorted non-decreasing by depth.  It holds
    one dot for each kept point and nothing else: with [showAllNumbers] off
    the kept points are exactly those whose index is in the prime set, with it
    on they are all the points.  The dot of a point has radius
    [max(1, dotSize * perspectiveScale)] and the depth [project] returns. *)
Theorem projected_sorted_filtered (points : list Geometry.Point3D) (primes : gset Z)
    (dotSize width height : R) (rotation : Projector.Rotation) (zoom : R)
    (showAllNumbers perspective : bool) :
  let out := Scene.projected points primes dotSize width height rotation zoom
               showAllNumbers perspective in
  let dot := Scene.dot primes dotSize width height rotation zoom perspective in
  let pr p := Projector.project width height rotation zoom perspective (Scene.coords p) in
  Scene.ascending Scene.dot_z out /\
  out ≡ₚ dot <$> filter (fun p => showAllNumbers = true \/ Geometry.pt_n p ∈ primes) points /\
  Scene.dot_n <$> out ≡ₚ
    (if showAllNumbers then Geometry.pt_n <$> points
     else filter (fun n => n ∈ primes) (Geometry.pt_n <$> points)) /\
  forall p, Scene.dot_n (dot p) = Geometry.pt_n p /\
            Scene.dot_prime (dot p) = bool_decide (Geometry.pt_n p ∈ primes) /\
            Scene.dot_z (dot p) = Projector.pr_z (pr p) /\
            Scene.dot_r (dot p) = Rmax 1 (dotSize * Projector.pr_p (pr p)).
Proof.
  intros out dot pr.
  assert (out ≡ₚ dot <$> filter (fun p => showAllNumbers = true \/ Geometry.pt_n p ∈ primes) points)
    as Hperm.
  { unfold out, Scene.projected. rewrite array_sort_perm, visit_foldl. done. }
  split; [apply array_sort_ascending|]. split; [exact Hperm|]. split; [|done].
  rewrite Hperm, <- list_fmap_compose.
  rewrite (list_fmap_ext (Scene.dot_n ∘ dot) Geometry.pt_n) by done.
  by rewrite kept_indices.
Qed.

(** ** Interaction controller *)

Section InteractionProofs.
Import Projector Interaction.

Lemma clamp_range (v : R) : (0.1 <= clamp v 0.1 5 <= 5)%R.
Proof.
  unfold clamp. split; [apply Rmax_l|].
  apply Rmax_lub; [lra | apply Rmin_l].
Qed.

Lemma clamp_inside (v : R) : (0.1 <= v <= 5)%R -> clamp v 0.1 5 = v.
Proof.
  intros [Hlo Hhi]. unfold clamp.
  rewrite Rmin_right by done. by rewrite Rmax_right.
Qed.

Lemma map_set_length_has (m : PointerMap) (k : Z) (v : Pos) :
  map_has m k = true -> length (map_set m k v) = length m.
Proof.
  induction m as [|[k' v'] m IH]; simpl; [done|].
  destruct (k =? k'); simpl; [done|]. intros Hhas. by rewrite IH.
Qed.

Lemma hypot_horizontal (dx : R) : hypot dx 0 = Rabs dx.
Proof.
  unfold hypot. replace (dx * dx + 0 * 0)%R with (Rsqr dx) by (unfold Rsqr; lra).
  apply sqrt_Rsqr_abs.
Qed.

(** Every handler leaves the zoom alone or writes a clamped value. *)
Lemma handle_zoom (s : State) (e : Event) :
  zoom (handle s e) = zoom s \/ (0.1 <= zoom (handle s e) <= 5)%R.
Proof.
  destruct e as [i c|i c|i|i|d k]; simpl.
  - left. unfold onPointerDown. repeat case_match; done.
  - unfold onPointerMove. repeat case_match; simpl; auto.
    right. apply clamp_range.
  - by left.
  - by left.
  - right. apply clamp_range.
Qed.

(** C8. From a zoom in [[0.1, 5]], the zoom after any finite sequence of
    events of the view (wheel events and pinch moves among them) is in
    [[0.1, 5]]. *)
Theorem zoom_stays_clamped (s : State) (events : list Event) :
  (0.1 <= zoom s <= 5)%R -> (0.1 <= zoom (run s events) <= 5)%R.
Proof.
  unfold run. revert s. induction events as [|e events IH]; intros s Hs; [done|].
  simpl. apply IH. destruct (handle_zoom s e) as [->|Hrange]; done.
Qed.

Lemma zoom_stays_clamped_witness :
  (0.1 <= zoom (run initial
     [Wheel (-6000) false; PointerDown 1 (mkPos 0 0); PointerDown 2 (mkPos 10 0);
      PointerMove 2 (mkPos 900 0); Wheel 9000 true]) <= 5)%R.
Proof. apply zoom_stays_clamped. simpl. lra. Defined.

(** *** Drag *)

(** One move of the only contact while dragging: the rotation advances by
    the offset from [lastPos], which then becomes the new position. *)
Lemma drag_step (s : State) (id : Z) (prev client : Pos) :
  pointers s = [(id, prev)] -> isDragging s = true ->
  onPointerMove s id client =
    {| rotation :=
         {| rot_x := rot_x (rotation s) + (pos_y client - pos_y (lastPos s)) * 0.01;
            rot_y := rot_y (rotation s) + (pos_x client - pos_x (lastPos s)) * 0.01 |};
       zoom := zoom s; isDragging := true; lastPos := client;
       pointers := [(id, client)]; pinch := pinch s |}.
Proof.
  intros Hptr Hdrag. unfold onPointerMove. rewrite Hptr, Hdrag. simpl.
  rewrite Z.eqb_refl. simpl. done.
Qed.

Lemma last_cons_default {A : Type} (l : list A) (a d : A) :
  List.last (a :: l) d = List.last l a.
Proof.
  revert a d. induction l as [|b l IH]; intros a d; [done|].
  change (List.last (a :: b :: l) d) with (List.last (b :: l) d).
  by rewrite !IH.
Qed.

(** While a drag that began with no other contact goes on, the one contact is
    recorded at its latest position and [lastPos] agrees with it. *)
Lemma drag_path (s : State) (id : Z) (prev : Pos) (path : list Pos) :
  pointers s = [(id, prev)] -> isDragging s = true -> lastPos s = prev ->
  let s' := run s (PointerMove id <$> path) in
  pointers s' = [(id, List.last path prev)] /\ isDragging s' = true /\
  lastPos s' = List.last path prev.
Proof.
  revert s prev. induction path as [|q path IH]; intros s prev Hptr Hdrag Hlast; [done|].
  rewrite last_cons_default.
  unfold run. simpl. apply IH; by rewrite (drag_step s id prev q).
Qed.

(** In a drag with a single contact that began when no contact was active,
    each move of the pointer by [(dx, dy)] from its position at the last move
    (or at the start of the drag) adds [dy * 0.01] to [rotationX] and
    [dx * 0.01] to [rotationY], and leaves the zoom alone; from rotation
    [(0, 0)] a move by [(10, -20)] gives rotation [(-0.2, 0.1)]. *)
Theorem drag_rotates (s0 : State) (id : Z) (start : Pos) (path : list Pos) (client : Pos) :
  pointers s0 = [] ->
  let s := run s0 (PointerDown id start :: (PointerMove id <$> path)) in
  let prev := List.last path start in
  let dx := (pos_x client - pos_x prev)%R in
  let dy := (pos_y client - pos_y prev)%R in
  let s' := onPointerMove s id client in
  rot_x (rotation s') = (rot_x (rotation s) + dy * 0.01)%R /\
  rot_y (rotation s') = (rot_y (rotation s) + dx * 0.01)%R /\
  zoom s' = zoom s /\
  (rotation s = mkRotation 0 0 -> dx = 10%R -> dy = (-20)%R ->
   rotation s' = mkRotation (-0.2) 0.1).
Proof.
  intros Hidle s prev dx dy s'.
  destruct (drag_path (onPointerDown s0 id start) id start path)
    as (Hptr & Hdrag & Hlast).
  { unfold onPointerDown. by rewrite Hidle. }
  { unfold onPointerDown. by rewrite Hidle. }
  { unfold onPointerDown. by rewrite Hidle. }
  fold (run (onPointerDown s0 id start) (PointerMove id <$> path)) in Hptr, Hdrag, Hlast.
  change (run (onPointerDown s0 id start) (PointerMove id <$> path)) with s
    in Hptr, Hdrag, Hlast.
  unfold s'. rewrite (drag_step s id prev client Hptr Hdrag). simpl.
  rewrite Hlast. fold prev dx dy.
  split; [done|]. split; [done|]. split; [done|].
  intros -> -> ->. simpl. f_equal; lra.
Qed.

Lemma drag_rotates_witness :
  rotation (onPointerMove (run initial [PointerDown 1 (mkPos 100 100)]) 1 (mkPos 110 80)) =
  mkRotation (-0.2) 0.1.
Proof.
  apply (drag_rotates initial 1 (mkPos 100 100) [] (mkPos 110 80)); simpl;
    [reflexivity | reflexivity | lra | lra].
Defined.

(** C9 fails in the single-contact drag that follows a pinch.  The branch for
    one contact keeps [lastPos] at the pointer's latest position; the branch
    for two contacts and [onPointerUp] do not.  So when the second contact is
    lifted, [lastPos] is still where the first contact was before the pinch.
    Here contact 1 goes down at [(0, 0)], contact 2 at [(100, 0)], contact 1
    moves to [(50, 0)] and contact 2 is lifted: one contact is left, at
    [(50, 0)], and the drag is on.  Its next move, to [(60, 0)], is a move by
    [(dx, dy) = (10, 0)] since its last move, yet [rotationY] grows by
    [(60 - 0) * 0.01 = 0.6], not by [dx * 0.01 = 0.1]. *)
Remark drag_after_pinch :
  let s := run initial [PointerDown 1 (mkPos 0 0); PointerDown 2 (mkPos 100 0);
                        PointerMove 1 (mkPos 50 0); PointerUp 2] in
  let client := mkPos 60 0 in
  let s' := onPointerMove s 1 client in
  pointers s = [(1, mkPos 50 0)] /\ isDragging s = true /\ pinch s = None /\
  lastPos s = mkPos 0 0 /\
  (pos_x client - 50 = 10 /\ pos_y client - 0 = 0)%R /\
  rot_x (rotation s') = rot_x (rotation s) /\
  rot_y (rotation s') = (rot_y (rotation s) + 0.6)%R /\
  rot_y (rotation s') <> (rot_y (rotation s) + 10 * 0.01)%R.
Proof.
  simpl. repeat split; try reflexivity; lra.
Qed.

(** *** Pinch *)

Lemma map_has_set (m : PointerMap) (k : Z) (v : Pos) (k' : Z) :
  map_has m k = true -> map_has (map_set m k v) k' = map_has m k'.
Proof.
  induction m as [|[k0 v0] m IH]; simpl; [done|].
  destruct (Z.eqb_spec k k0) as [->|Hne]; simpl; [done|].
  intros Hhas. by rewrite IH.
Qed.

Lemma map_set_fresh (m : PointerMap) (k : Z) (v : Pos) :
  map_has m k = false -> map_set m k v = m ++ [(k, v)].
Proof.
  induction m as [|[k0 v0] m IH]; simpl; [done|].
  destruct (k =? k0); simpl; [done|]. intros Hhas. by rewrite IH.
Qed.

(** The second contact records the baseline: the distance between the two
    contacts and the zoom at that moment. *)
Lemma pinch_start (s : State) (id : Z) (client : Pos) :
  map_size (pointers s) = 1 -> map_has (pointers s) id = false ->
  onPointerDown s id client =
    {| rotation := rotation s; zoom := zoom s; isDragging := isDragging s;
       lastPos := lastPos s; pointers := pointers s ++ [(id, client)];
       pinch := Some {| startDist := contactDistance (pointers s ++ [(id, client)]);
                        startZoom := zoom s |} |}.
Proof.
  intros Hsize Hhas. unfold onPointerDown. rewrite (map_set_fresh _ _ _ Hhas).
  unfold map_size in *. destruct (pointers s) as [|[k0 v0] [|? ?]]; simpl in *; [lia| |lia].
  done.
Qed.

(** One move of either contact of a pinch: the zoom is recomputed from the
    baseline, whose distance is floored at [1]; nothing else changes. *)
Lemma pinch_step (s : State) (id : Z) (client : Pos) (base : Pinch) :
  map_size (pointers s) = 2 -> map_has (pointers s) id = true -> pinch s = Some base ->
  onPointerMove s id client =
    {| rotation := rotation s;
       zoom := clamp (startZoom base *
                      (contactDistance (map_set (pointers s) id client) /
                       Rmax 1 (startDist base))) 0.1 5;
       isDragging := isDragging s; lastPos := lastPos s;
       pointers := map_set (pointers s) id client; pinch := Some base |}.
Proof.
  intros Hsize Hhas Hpinch. unfold onPointerMove, contactDistance.
  rewrite Hhas, Hpinch. simpl.
  assert (map_size (map_set (pointers s) id client) = 2) as Hsize'
    by (unfold map_size in *; by rewrite map_set_length_has).
  rewrite Hsize'. simpl.
  unfold map_size in Hsize'.
  destruct (map_set (pointers s) id client) as [|[k0 v0] [|[k1 v1] [|? ?]]];
    simpl in *; try lia.
  done.
Qed.

(** While only the two contacts move, the pinch keeps its two contacts, its
    baseline and the rotation. *)
Lemma pinch_path (s : State) (base : Pinch) (moves : list (Z * Pos)) :
  map_size (pointers s) = 2 -> pinch s = Some base ->
  Forall (fun m => map_has (pointers s) m.1 = true) moves ->
  let s' := run s (uncurry PointerMove <$> moves) in
  map_size (pointers s') = 2 /\ pinch s' = Some base /\ rotation s' = rotation s /\
  forall k, map_has (pointers s') k = map_has (pointers s) k.
Proof.
  revert s. induction moves as [|[id client] moves IH]; intros s Hsize Hpinch Hmoves; [done|].
  apply Forall_cons in Hmoves as [Hhas Hmoves]. simpl in Hhas.
  unfold run. simpl. rewrite (pinch_step s id client base Hsize Hhas Hpinch).
  set (t := {| rotation := rotation s |}).
  destruct (IH t) as (Hsize' & Hpinch' & Hrot & Hkeys).
  - unfold t, map_size in *; simpl. by rewrite map_set_length_has.
  - done.
  - eapply Forall_impl; [exact Hmoves|]. intros m Hm. unfold t; simpl.
    by rewrite map_has_set.
  - unfold run in Hkeys.
    split; [exact Hsize'|]. split; [exact Hpinch'|]. split; [exact Hrot|].
    intros k. transitivity (map_has (pointers t) k); [apply Hkeys|].
    unfold t; simpl. by apply map_has_set.
Qed.

(** C5, as the code has it.  From the moment a second contact begins, each
    move of either contact sets the zoom to
    [clamp(startZoom * currentDistance / max(1, startDistance), 0.1, 5)],
    where [startDistance] is the distance between the two contacts and
    [startZoom] the zoom when the second contact began; when the contacts
    began at least one pixel apart this is
    [clamp(startZoom * currentDistance / startDistance, 0.1, 5)].  No move
    made while the two contacts are active changes the rotation. *)
Theorem pinch_zoom (s1 : State) (id2 : Z) (c2 : Pos) (moves : list (Z * Pos))
    (id : Z) (client : Pos) :
  map_size (pointers s1) = 1 -> map_has (pointers s1) id2 = false ->
  let s2 := onPointerDown s1 id2 c2 in
  Forall (fun m => map_has (pointers s2) m.1 = true) moves ->
  map_has (pointers s2) id = true ->
  let s := run s2 (uncurry PointerMove <$> moves) in
  let s' := onPointerMove s id client in
  let dist0 := contactDistance (pointers s2) in
  let zoom0 := zoom s1 in
  let dist := contactDistance (pointers s') in
  zoom s' = clamp (zoom0 * (dist / Rmax 1 dist0)) 0.1 5 /\
  ((1 <= dist0)%R -> zoom s' = clamp (zoom0 * (dist / dist0)) 0.1 5) /\
  rotation s' = rotation s /\ rotation s = rotation s1.
Proof.
  intros Hsize Hfresh s2 Hmoves Hid s s' dist0 zoom0 dist.
  pose proof (pinch_start s1 id2 c2 Hsize Hfresh) as Hs2. fold s2 in Hs2.
  set (base := {| startDist := dist0; startZoom := zoom0 |}).
  assert (map_size (pointers s2) = 2) as Hsize2.
  { rewrite Hs2. unfold map_size in *. simpl. rewrite length_app. simpl. lia. }
  assert (pinch s2 = Some base) as Hpinch2.
  { unfold base, dist0, zoom0. rewrite Hs2 at 1. simpl. by rewrite Hs2. }
  destruct (pinch_path s2 base moves Hsize2 Hpinch2 Hmoves)
    as (Hsize' & Hpinch' & Hrot & Hkeys).
  fold s in Hsize', Hpinch', Hrot, Hkeys.
  assert (rotation s2 = rotation s1) as Hrot2 by (by rewrite Hs2).
  assert (zoom s' = clamp (zoom0 * (dist / Rmax 1 dist0)) 0.1 5) as Hzoom.
  { unfold dist, s'. rewrite (pinch_step s id client base); [done|done| |done].
    by rewrite Hkeys. }
  split; [exact Hzoom|]. split; [|split].
  - intros Hfar. rewrite Hzoom. by rewrite Rmax_right.
  - unfold s'. rewrite (pinch_step s id client base); [done|done| |done].
    by rewrite Hkeys.
  - congruence.
Qed.

Lemma pinch_zoom_witness :
  let s2 := run initial [PointerDown 1 (mkPos 0 0); PointerDown 2 (mkPos 100 0)] in
  let s' := run s2 [PointerMove 1 (mkPos 20 0); PointerMove 2 (mkPos 220 0)] in
  zoom s' = clamp (1 * (contactDistance (pointers s') / Rmax 1 (contactDistance (pointers s2))))
              0.1 5.
Proof.
  apply (pinch_zoom (onPointerDown initial 1 (mkPos 0 0)) 2 (mkPos 100 0)
           [(1, mkPos 20 0)] 2 (mkPos 220 0)).
  - reflexivity.
  - reflexivity.
  - repeat constructor.
  - reflexivity.
Defined.

(** C5 as stated fails when the contacts begin less than one pixel apart:
    with contacts at [(0, 0)] and [(0.5, 0)] and zoom [1], moving the second
    contact to [(2, 0)] sets the zoom to [2], not to
    [clamp(1 * 2 / 0.5, 0.1, 5) = 4]. *)
Lemma pinch_zoom_unfloored_counterexample :
  let s1 := onPointerDown initial 1 (mkPos 0 0) in
  let s2 := onPointerDown s1 2 (mkPos 0.5 0) in
  let s' := onPointerMove s2 2 (mkPos 2 0) in
  let startDistance := contactDistance (pointers s2) in
  let currentDistance := contactDistance (pointers s') in
  map_size (pointers s2) = 2 /\
  pinch s2 = Some {| startDist := startDistance; startZoom := zoom s1 |} /\
  startDistance = 0.5%R /\ currentDistance = 2%R /\ zoom s' = 2%R /\
  zoom s' <> clamp (zoom s1 * (currentDistance / startDistance)) 0.1 5.
Proof.
  assert (hypot (0 - 0.5) (0 - 0) = 0.5)%R as Hd0.
  { replace (0 - 0)%R with 0%R by lra. rewrite hypot_horizontal.
    rewrite Rabs_left by lra. lra. }
  assert (hypot (0 - 2) (0 - 0) = 2)%R as Hd.
  { replace (0 - 0)%R with 0%R by lra. rewrite hypot_horizontal.
    rewrite Rabs_left by lra. lra. }
  assert (clamp (1 * (2 / Rmax 1 0.5)) 0.1 5 = 2)%R as Hcode.
  { rewrite Rmax_left by lra. rewrite clamp_inside by lra. lra. }
  assert (clamp (1 * (2 / 0.5)) 0.1 5 = 4)%R as Hclaim.
  { rewrite clamp_inside by lra. lra. }
  cbv zeta. unfold contactDistance. simpl.
  rewrite Hd0, Hd. fold (clamp (1 * (2 / Rmax 1 0.5)) 0.1 5).
  fold (clamp (1 * (2 / 0.5)) 0.1 5). rewrite Hcode, Hclaim.
  repeat split; try reflexivity. lra.
Qed.

End InteractionProofs.

(** ** Scale factors *)

Section ScaleProofs.
Import Projector Interaction.

(** C6 as stated fails: [project] does not clamp its perspective scale.  At
    rotation [(0, 0)], the point [(0, 0, -20)] has depth [-20] and
    perspective scale [1 / (1 - 2) = -1], outside [[0.1, 5]]. *)
Lemma perspective_scale_unclamped_counterexample :
  let pr := project 800 600 (mkRotation 0 0) 1 true (mkVec3 0 0 (-20)) in
  pr_z pr = (-20)%R /\ pr_p pr = (-1)%R /\ ~ (0.1 <= pr_p pr <= 5)%R.
Proof.
  unfold project. simpl. rewrite cos_0, sin_0.
  assert (- 0 * 0 + (0 * 0 + -20 * 1) * 1 = -20)%R as -> by lra.
  assert (1 / (1 + -20 * 0.1) = -1)%R as -> by (field_simplify_eq; lra).
  split; [done|]. split; [done|]. lra.
Qed.

(** C6, as the code has it.  The zoom is the scale factor that is clamped:
    the wheel handler and the pinch branch of the move handler write it
    through [clamp(., 0.1, 5)].  The perspective scale of [project] is not
    clamped: it is [1] with perspective disabled and [1 / (1 + z2 * 0.1)]
    with it enabled, which is in [[0.1, 5]] exactly when [-8 <= z2 <= 90]. *)
Theorem zoom_clamped_perspective_unclamped (width height : R) (angles : Rotation)
    (factor : R) (pt : Vec3) (s : State) (deltaY : R) (ctrlKey : bool)
    (id : Z) (client : Pos) :
  let flat := project width height angles factor false pt in
  let deep := project width height angles factor true pt in
  (0.1 <= zoom (onWheel s deltaY ctrlKey) <= 5)%R /\
  (zoom (onPointerMove s id client) = zoom s \/
   (0.1 <= zoom (onPointerMove s id client) <= 5)%R) /\
  pr_p flat = 1%R /\
  pr_p deep = (1 / (1 + pr_z deep * 0.1))%R /\
  ((0.1 <= pr_p deep <= 5)%R <-> (-8 <= pr_z deep <= 90)%R).
Proof.
  intros flat deep.
  split; [apply clamp_range|].
  split; [exact (handle_zoom s (PointerMove id client))|].
  split; [reflexivity|]. split; [reflexivity|].
  change (pr_p deep) with (1 / (1 + pr_z deep * 0.1))%R.
  rewrite <- reciprocal_range. split; intros [? ?]; split; lra.
Qed.

End ScaleProofs.

(** * Further properties *)

(** ** The sieve's output as a list of primes *)

Section SieveOutput.
Import Sieve.

(** Entries are collected in increasing order of their index. *)
Lemma collect_from_sorted (s : list bool) (k : nat) :
  let l := filter (fun n => 0 < n)
             (imap (fun i (b : bool) => if b then Z.of_nat (k + i) else -1) s) in
  StronglySorted Z.lt l /\ forall n, n ∈ l -> Z.of_nat k <= n.
Proof.
  revert k. induction s as [|b s IH]; intros k; simpl.
  - split; [constructor | intros n Hn; by apply elem_of_nil in Hn].
  - destruct (IH (S k)) as [Hsorted Hge].
    rewrite (imap_ext _ (fun i (b : bool) => if b then Z.of_nat (S k + i) else -1));
      [|intros i [] _; simpl; [f_equal; lia | done]].
    rewrite filter_cons. destruct b; simpl.
    + destruct (decide (0 < Z.of_nat (k + 0))) as [Hpos|Hz].
      * split.
        -- constructor; [done|]. apply Forall_forall. intros n Hin.
           apply Hge in Hin. lia.
        -- intros n [->|Hin]%elem_of_cons; [lia | apply Hge in Hin; lia].
      * split; [done|]. intros n Hin. apply Hge in Hin. lia.
    + split; [exact Hsorted|]. intros n Hin. apply Hge in Hin. lia.
Qed.

Lemma collect_sorted (s : list bool) : StronglySorted Z.lt (collect s).
Proof. exact (proj1 (collect_from_sorted s 0)). Qed.

(** What [sievePrimes] returns, in one statement for the results below. *)
Lemma sievePrimes_spec (limit : Z) :
  exists l, sievePrimes limit = Some l /\ StronglySorted Z.lt l /\
    forall n, n ∈ l <-> 2 <= n <= limit /\ trial_prime n.
Proof.
  unfold sievePrimes. destruct (Z.ltb_spec limit 2) as [Hlt|Hge].
  - exists []. split; [done|]. split; [constructor|].
    intros n. split; [by intros ?%elem_of_nil | lia].
  - destruct (sieve_loop_spec limit Hge) as (t & Hrun & Hget).
    cbv zeta in Hrun. rewrite Hrun. exists (collect t).
    split; [done|]. split; [apply collect_sorted|].
    intros n. rewrite elem_of_collect. split.
    + intros [Hpos Ht]. by apply Hget.
    + intros [Hn Hprime]. split; [lia|]. apply Hget; [lia | done].
Qed.

(** Passing trial division up to the square root is primality. *)
Lemma trial_prime_prime (n : Z) : 2 <= n -> (trial_prime n <-> Z.prime n).
Proof.
  intros Hn. pose proof (Z.sqrt_spec n ltac:(lia)) as [Hlo Hhi].
  pose proof (Z.sqrt_nonneg n) as Hnn. unfold Z.succ in Hhi. split.
  - intros Htrial. split; [lia|]. intros m Hm Hdiv.
    destruct (Z_le_gt_dec m (Z.sqrt n)) as [Hsmall|Hbig].
    + apply (Htrial m); [lia | done].
    + destruct Hdiv as [q Hq].
      assert (2 <= q <= Z.sqrt n) as Hqr by nia.
      apply (Htrial q Hqr). exists m. lia.
  - intros [_ Hprime] d Hd. apply Hprime.
    pose proof (Z.sqrt_lt_lin n ltac:(lia)). lia.
Qed.

Lemma increasing_filter (P : Z -> Prop) `{!forall n, Decision (P n)} (l : list Z) :
  StronglySorted Z.lt l -> StronglySorted Z.lt (filter P l).
Proof.
  induction 1 as [|a l Hsorted IH Hall]; [constructor|].
  rewrite filter_cons. destruct (decide (P a)); [|done].
  constructor; [done|]. apply Forall_forall.
  intros n [_ Hn]%list_elem_of_filter. rewrite Forall_forall in Hall. by apply Hall.
Qed.

Lemma increasing_NoDup (l : list Z) : StronglySorted Z.lt l -> NoDup l.
Proof.
  induction 1 as [|a l Hsorted IH Hall]; [constructor|].
  constructor; [|done]. intros Hin. rewrite Forall_forall in Hall.
  apply Hall in Hin. lia.
Qed.

(** The primes are listed in strictly increasing order. *)
Theorem sievePrimes_increasing (limit : Z) :
  exists l, sievePrimes limit = Some l /\ StronglySorted Z.lt l.
Proof.
  destruct (sievePrimes_spec limit) as (l & Hrun & Hsorted & _). eauto.
Qed.

(** The list holds exactly the prime numbers up to [limit]. *)
Theorem sievePrimes_primes (limit : Z) :
  exists l, sievePrimes limit = Some l /\
    forall n, n ∈ l <-> n <= limit /\ Z.prime n.
Proof.
  destruct (sievePrimes_spec limit) as (l & Hrun & _ & Hmem).
  exists l. split; [done|]. intros n. rewrite Hmem. split.
  - intros [Hn Htrial]. split; [lia|]. by apply trial_prime_prime; [lia|].
  - intros [Hn Hprime]. pose proof (Z.prime_ge_2 n Hprime).
    split; [lia|]. by apply trial_prime_prime.
Qed.

(** Sieving to a smaller bound gives the part of the larger result that is
    within the smaller bound. *)
Theorem sievePrimes_restrict (limit limit' : Z) :
  limit <= limit' ->
  exists l l', sievePrimes limit = Some l /\ sievePrimes limit' = Some l' /\
    l = filter (fun n => n <= limit) l'.
Proof.
  intros Hle.
  destruct (sievePrimes_spec limit) as (l & Hrun & Hsorted & Hmem).
  destruct (sievePrimes_spec limit') as (l' & Hrun' & Hsorted' & Hmem').
  exists l, l'. split; [done|]. split; [done|].
  apply (StronglySorted_unique_strong Z.lt).
  - intros. lia.
  - done.
  - by apply increasing_filter.
  - apply NoDup_Permutation.
    + by apply increasing_NoDup.
    + by apply NoDup_filter, increasing_NoDup.
    + intros n. rewrite list_elem_of_filter, Hmem, Hmem'.
      split; [intros [Hr Ht]; split; [lia | split; [lia | done]]
             | intros [Hr [Hr' Ht]]; split; [lia | done]].
Qed.

Lemma sievePrimes_restrict_witness :
  exists l l', sievePrimes 10 = Some l /\ sievePrimes 30 = Some l' /\
    l = filter (fun n => n <= 10) l'.
Proof. apply (sievePrimes_restrict 10 30). lia. Defined.

End SieveOutput.

(** ** The shapes the generators trace *)

Section Shapes.
Import Geometry.

(** A property of the points of [1 .. N] holds of every generated point. *)
Lemma generate_Forall (N : Z) (point : Z -> Point3D) (P : Point3D -> Prop) :
  (forall n, 1 <= n <= N -> P (point n)) ->
  exists pts, generate N point = Some pts /\ Forall P pts.
Proof.
  intros HP. rewrite generate_spec. eexists. split; [reflexivity|].
  apply Forall_fmap, Forall_forall. intros n Hn%elem_of_seqZ. apply HP. lia.
Qed.

Lemma circle (r t : R) : (r * cos t * (r * cos t) + r * sin t * (r * sin t) = r * r)%R.
Proof.
  pose proof (sin2_cos2 t) as H. unfold Rsqr in H.
  replace (r * cos t * (r * cos t) + r * sin t * (r * sin t))%R
    with (r * r * (sin t * sin t + cos t * cos t))%R by ring.
  rewrite H. ring.
Qed.

(** Every point of the helix lies on the cylinder of the given radius, at a
    height proportional to its index. *)
Theorem coordsHelix_cylinder (N : Z) (stepAngle radius pitch : R) :
  exists pts, coordsHelix N stepAngle radius pitch = Some pts /\
    Forall (fun p =>
      (pt_x p * pt_x p + pt_y p * pt_y p = radius * radius /\
       pt_z p = pitch * stepAngle * IZR (pt_n p))%R) pts.
Proof.
  apply generate_Forall. intros n _. unfold helixPoint. simpl.
  split; [apply circle | ring].
Qed.

(** Every point of the conical spiral is at distance [|a + b * t|] from the
    axis and at height [c * t], for [t = n * stepAngle]. *)
Theorem coordsConicalArchimedean_cone (N : Z) (stepAngle a b c : R) :
  exists pts, coordsConicalArchimedean N stepAngle a b c = Some pts /\
    Forall (fun p =>
      let t := (IZR (pt_n p) * stepAngle)%R in
      (pt_x p * pt_x p + pt_y p * pt_y p = (a + b * t) * (a + b * t) /\
       pt_z p = c * t)%R) pts.
Proof.
  apply generate_Forall. intros n _. unfold conicalPoint. simpl.
  split; [apply circle | done].
Qed.

(** The helix is the conical spiral whose radius does not grow. *)
Theorem coordsHelix_conical (N : Z) (stepAngle radius pitch : R) :
  coordsConicalArchimedean N stepAngle radius 0 pitch =
  coordsHelix N stepAngle radius pitch.
Proof.
  unfold coordsConicalArchimedean, coordsHelix. rewrite !generate_spec.
  f_equal. apply list_fmap_ext. intros _ n _.
  unfold conicalPoint, helixPoint. f_equal; ring.
Qed.

(** Every point of the spherical spiral lies on the unit sphere. *)
Theorem coordsSphericalSpiral_sphere (N : Z) (stepAngle : R) :
  exists pts, coordsSphericalSpiral N stepAngle = Some pts /\
    Forall (fun p =>
      (pt_x p * pt_x p + pt_y p * pt_y p + pt_z p * pt_z p = 1 /\
       -1 <= pt_z p <= 1)%R) pts.
Proof.
  apply generate_Forall. intros n Hn.
  pose proof (spherical_radius N stepAngle n) as Hr. cbv zeta in Hr.
  set (p := sphericalPoint N stepAngle n) in *.
  assert (-1 <= pt_z p <= 1)%R as Hz.
  { unfold p, sphericalPoint. simpl.
    set (D := Rmax (IZR N - 1) 1).
    assert (1 <= D)%R as HD1 by apply Rmax_r.
    assert (IZR N - 1 <= D)%R as HDN by apply Rmax_l.
    assert (0 <= IZR n - 1 <= IZR N - 1)%R as Hnr.
    { destruct Hn as [Hn1 HnN]. apply IZR_le in Hn1, HnN. lra. }
    assert (0 <= (IZR n - 1) / D <= 1)%R as Hu.
    { split.
      - apply Rmult_le_reg_r with D; [lra|].
        unfold Rdiv. rewrite Rmult_assoc, Rinv_l by lra. lra.
      - apply Rmult_le_reg_r with D; [lra|].
        unfold Rdiv. rewrite Rmult_assoc, Rinv_l by lra. lra. }
    replace (2 * (IZR n - 1) / D)%R with (2 * ((IZR n - 1) / D))%R
      by (unfold Rdiv; ring).
    lra. }
  split; [|done]. rewrite Hr. rewrite Rmax_right by nra. ring.
Qed.

Lemma layer_decode (S n : Z) :
  1 <= S -> 1 <= n ->
  0 <= layerOf S n /\ 0 <= idxInLayerOf S n < S /\
  n = layerOf S n * S + idxInLayerOf S n + 1.
Proof.
  intros HS Hn. unfold layerOf, idxInLayerOf.
  rewrite Z.rem_mod_nonneg by lia.
  pose proof (Z.div_mod (n - 1) S ltac:(lia)).
  pose proof (Z.mod_pos_bound (n - 1) S ltac:(lia)).
  pose proof (Z.div_pos (n - 1) S ltac:(lia) ltac:(lia)).
  lia.
Qed.

(** The layered generator cuts [1 .. N] into consecutive blocks of
    [S = max(blockSize, 1)] numbers: the point of [n = layer * S + idx + 1]
    with [0 <= idx < S] is on the ring of radius [layerRadius] at height
    [layer], at angle [idx * stepAngle]. *)
Theorem coordsLayeredTime_rings (N blockSize : Z) (layerRadius stepAngle : R) :
  exists pts, coordsLayeredTime N blockSize layerRadius stepAngle = Some pts /\
    Forall (fun p =>
      exists layer idx,
        0 <= layer /\ 0 <= idx < safeBlock blockSize /\
        pt_n p = layer * safeBlock blockSize + idx + 1 /\
        pt_z p = IZR layer /\
        pt_x p = (layerRadius * cos (IZR idx * stepAngle))%R /\
        pt_y p = (layerRadius * sin (IZR idx * stepAngle))%R /\
        (pt_x p * pt_x p + pt_y p * pt_y p = layerRadius * layerRadius)%R) pts.
Proof.
  apply generate_Forall. intros n Hn.
  exists (layerOf (safeBlock blockSize) n), (idxInLayerOf (safeBlock blockSize) n).
  destruct (layer_decode (safeBlock blockSize) n) as (Hl & Hi & Hdec);
    [unfold safeBlock; lia | lia |].
  unfold layeredPoint. simpl. repeat split; try done; try lia. apply circle.
Qed.

(** One block further on, a number sits at the same place of the ring, one
    layer higher. *)
Theorem coordsLayeredTime_period (N blockSize : Z) (layerRadius stepAngle : R) (n : Z) :
  1 <= n -> n + safeBlock blockSize <= N ->
  exists pts p q,
    coordsLayeredTime N blockSize layerRadius stepAngle = Some pts /\
    pts !! Z.to_nat (n - 1) = Some p /\
    pts !! Z.to_nat (n - 1 + safeBlock blockSize) = Some q /\
    pt_x q = pt_x p /\ pt_y q = pt_y p /\ pt_z q = (pt_z p + 1)%R.
Proof.
  intros Hn HN. set (S := safeBlock blockSize) in *.
  assert (1 <= S) as HS by (unfold S, safeBlock; lia).
  unfold coordsLayeredTime. fold S. rewrite generate_spec.
  exists (layeredPoint S layerRadius stepAngle <$> seqZ 1 N),
         (layeredPoint S layerRadius stepAngle n),
         (layeredPoint S layerRadius stepAngle (n + S)).
  split; [reflexivity|].
  rewrite !list_lookup_fmap, !lookup_seqZ_lt by lia.
  replace (1 + Z.of_nat (Z.to_nat (n - 1 + S))) with (n + S) by lia.
  replace (1 + Z.of_nat (Z.to_nat (n - 1))) with n by lia.
  split; [reflexivity|]. split; [reflexivity|].
  assert (idxInLayerOf S (n + S) = idxInLayerOf S n) as Hidx.
  { unfold idxInLayerOf. rewrite !Z.rem_mod_nonneg by lia.
    replace (n + S - 1) with (n - 1 + 1 * S) by lia. apply Z_mod_plus_full. }
  assert (layerOf S (n + S) = layerOf S n + 1) as Hlayer.
  { unfold layerOf. replace (n + S - 1) with (n - 1 + 1 * S) by lia.
    rewrite Z.div_add by lia. done. }
  unfold layeredPoint. cbn [pt_x pt_y pt_z].
  rewrite Hidx, Hlayer, plus_IZR. done.
Qed.

Lemma coordsLayeredTime_period_witness :
  exists pts p q,
    coordsLayeredTime 500 200 6 0.35 = Some pts /\
    pts !! Z.to_nat (7 - 1) = Some p /\
    pts !! Z.to_nat (7 - 1 + safeBlock 200) = Some q /\
    pt_x q = pt_x p /\ pt_y q = pt_y p /\ pt_z q = (pt_z p + 1)%R.
Proof. apply (coordsLayeredTime_period 500 200 6 0.35 7); unfold safeBlock; lia. Defined.

End Shapes.

(** ** The projection as a rotation *)

Section Rotation.
Import Projector Overlay.

Lemma rotate_plane (a b c s : R) :
  (c * c + s * s = 1 ->
   (a * c + b * s) * (a * c + b * s) + (- a * s + b * c) * (- a * s + b * c) =
   a * a + b * b)%R.
Proof.
  intros H.
  replace ((a * c + b * s) * (a * c + b * s) + (- a * s + b * c) * (- a * s + b * c))%R
    with ((a * a + b * b) * (c * c + s * s))%R by ring.
  rewrite H. ring.
Qed.

Lemma cos_sin_one (t : R) : (cos t * cos t + sin t * sin t = 1)%R.
Proof. pose proof (sin2_cos2 t) as H. unfold Rsqr in H. lra. Qed.

(** The two rotations keep the distance from the origin.  Without perspective
    the squared screen offset from the centre of the viewport plus the squared
    scaled depth is the squared scaled distance of the point from the origin;
    with or without perspective the depth is at most that distance. *)
Theorem project_keeps_distance (width height : R) (angles : Rotation) (factor : R)
    (perspective : bool) (x y z : R) :
  let scale := (Rmin width height * 0.12 * factor)%R in
  let flat := project width height angles factor false (mkVec3 x y z) in
  let pr := project width height angles factor perspective (mkVec3 x y z) in
  ((pr_x flat - width / 2) * (pr_x flat - width / 2) +
   (pr_y flat - height / 2) * (pr_y flat - height / 2) +
   scale * pr_z flat * (scale * pr_z flat) =
   scale * scale * (x * x + y * y + z * z))%R /\
  (pr_z pr * pr_z pr <= x * x + y * y + z * z)%R.
Proof.
  intros scale flat pr.
  pose proof (cos_sin_one (rot_x angles)) as HX.
  pose proof (cos_sin_one (rot_y angles)) as HY.
  unfold flat, pr, project. cbn [pr_x pr_y pr_z v_x v_y v_z]. fold scale.
  set (cX := cos (rot_x angles)) in *. set (sX := sin (rot_x angles)) in *.
  set (cY := cos (rot_y angles)) in *. set (sY := sin (rot_y angles)) in *.
  set (y1 := (y * cX - z * sX)%R). set (z1 := (y * sX + z * cX)%R).
  set (x2 := (x * cY + z1 * sY)%R). set (z2 := (- x * sY + z1 * cY)%R).
  assert (y1 * y1 + z1 * z1 = y * y + z * z)%R as H1.
  { replace (y1 * y1 + z1 * z1)%R
      with ((z * cX + y * sX) * (z * cX + y * sX) +
            (- z * sX + y * cX) * (- z * sX + y * cX))%R by (unfold y1, z1; ring).
    rewrite (rotate_plane z y cX sX HX). ring. }
  assert (x2 * x2 + z2 * z2 = x * x + z1 * z1)%R as H2.
  { unfold x2, z2. apply rotate_plane. exact HY. }
  split.
  - replace (width / 2 + x2 * scale * 1 - width / 2)%R with (x2 * scale)%R by lra.
    replace (height / 2 + y1 * scale * 1 - height / 2)%R with (y1 * scale)%R by lra.
    replace (x2 * scale * (x2 * scale) + y1 * scale * (y1 * scale) +
             scale * z2 * (scale * z2))%R
      with (scale * scale * ((x2 * x2 + z2 * z2) + y1 * y1))%R by ring.
    rewrite H2. replace (x * x + z1 * z1 + y1 * y1)%R
      with (x * x + (y1 * y1 + z1 * z1))%R by ring.
    rewrite H1. ring.
  - assert (0 <= x2 * x2)%R by nra. assert (0 <= y1 * y1)%R by nra. nra.
Qed.

(** The axis overlay: three lines, each labelled at its positive end.  The two
    ends of a line are on opposite sides of the viewport centre, on one
    straight line through it, at opposite depths; without perspective the
    centre is the midpoint. *)
Theorem axes_through_centre (width height : R) (angles : Rotation) (factor : R)
    (perspective : bool) :
  exists lines, axes true width height angles factor perspective = Some lines /\
    ax_label <$> lines = [AxisX; AxisY; AxisZ] /\
    Forall (fun l =>
      ax_end l = ax_b l /\
      pr_z (ax_a l) = (- pr_z (ax_b l))%R /\
      ((pr_x (ax_a l) - width / 2) * (pr_y (ax_b l) - height / 2) =
       (pr_y (ax_a l) - height / 2) * (pr_x (ax_b l) - width / 2))%R /\
      (perspective = false ->
       (pr_x (ax_a l) + pr_x (ax_b l) = width /\
        pr_y (ax_a l) + pr_y (ax_b l) = height)%R)) lines.
Proof.
  eexists. split; [reflexivity|]. split; [reflexivity|].
  unfold project. cbn [v_x v_y v_z].
  apply Forall_cons_2; [|apply Forall_cons_2; [|apply Forall_cons_2; [|apply Forall_nil_2]]].
  all: cbn [ax_a ax_b ax_end pr_x pr_y pr_z pr_p].
  all: split; [reflexivity|].
  all: split; [ring|].
  all: split; [ring|].
  all: intros ->; split; field.
Qed.

Lemma axes_through_centre_witness :
  exists lines, axes true 800 600 (mkRotation 0.3 0.5) 1 false = Some lines /\
    Forall (fun l => (pr_x (ax_a l) + pr_x (ax_b l) = 800 /\
                      pr_y (ax_a l) + pr_y (ax_b l) = 600)%R) lines.
Proof.
  destruct (axes_through_centre 800 600 (mkRotation 0.3 0.5) 1 false)
    as (lines & Hrun & _ & Hall).
  exists lines. split; [exact Hrun|].
  eapply Forall_impl; [exact Hall|]. intros l (_ & _ & _ & Hmid). by apply Hmid.
Defined.

End Rotation.

(** ** The counts shown beside the scene *)

Section Counts.
Import Geometry Projector Scene Overlay.

Lemma primesShown_dots (primes : gset Z) (dotSize width height : R)
    (rotation : Rotation) (zoom : R) (showAllNumbers perspective : bool)
    (points : list Point3D) :
  primesShown (dot primes dotSize width height rotation zoom perspective <$>
               filter (fun p => showAllNumbers = true \/ pt_n p ∈ primes) points) =
  length (filter (fun p => pt_n p ∈ primes) points).
Proof.
  unfold primesShown. induction points as [|p points IH]; [done|].
  rewrite !(filter_cons _ p).
  destruct (decide (pt_n p ∈ primes)) as [Hin|Hout].
  - rewrite decide_True by (by right). rewrite fmap_cons, filter_cons.
    rewrite decide_True by (simpl; by apply bool_decide_eq_true). simpl. by rewrite IH.
  - destruct (decide (showAllNumbers = true \/ pt_n p ∈ primes)); [|done].
    rewrite fmap_cons, filter_cons.
    rewrite decide_False by (simpl; rewrite bool_decide_eq_true; done). done.
Qed.

(** The overlay's count of primes is the number of points whose index is in
    the prime set, whether or not the other numbers are shown and whatever the
    camera is. *)
Theorem primesShown_counts_primes (points : list Point3D) (primes : gset Z)
    (dotSize width height : R) (rotation : Rotation) (zoom : R)
    (showAllNumbers perspective : bool) :
  primesShown (projected points primes dotSize width height rotation zoom
                 showAllNumbers perspective) =
  length (filter (fun p => pt_n p ∈ primes) points).
Proof.
  rewrite <- (primesShown_dots primes dotSize width height rotation zoom
                showAllNumbers perspective).
  unfold primesShown, projected. rewrite array_sort_perm, visit_foldl. done.
Qed.

Lemma filter_indices_length (ps : gset Z) (point : Z -> Point3D) (l : list Z) :
  (forall n, pt_n (point n) = n) ->
  length (filter (fun p => pt_n p ∈ ps) (point <$> l)) =
  length (filter (fun n => n ∈ ps) l).
Proof.
  intros Hn. induction l as [|n l IH]; [done|].
  rewrite fmap_cons, !filter_cons, Hn.
  destruct (decide (n ∈ ps)); simpl; by rewrite IH.
Qed.

(** The primes found up to [N] are as many as the numbers of [1 .. N] that
    are in their set. *)
Lemma primes_within (N : Z) :
  exists l, Sieve.sievePrimes N = Some l /\ NoDup l /\
    length (filter (fun n => n ∈ (list_to_set l : gset Z)) (seqZ 1 N)) = length l.
Proof.
  destruct (sievePrimes_spec N) as (l & Hrun & Hsorted & Hmem).
  exists l. split; [done|]. pose proof (increasing_NoDup l Hsorted) as Hnd.
  split; [done|]. apply Permutation_length, NoDup_Permutation.
  - apply NoDup_filter, NoDup_seqZ.
  - done.
  - intros n. rewrite list_elem_of_filter, elem_of_list_to_set, elem_of_seqZ.
    split; [tauto|]. intros Hin. split; [done|]. apply Hmem in Hin. lia.
Qed.

(** For every mode, camera and filter the overlay reads
    [Primes: primes.size / N]: its first number is the size of the prime set
    shown in the statistics and its second is [N]. *)
Theorem overlay_matches_stats (mode : Mode) (N : Z) (q : Params)
    (dotSize width height : R) (rotation : Rotation) (zoom : R)
    (showAllNumbers perspective : bool) :
  0 <= N ->
  exists pts ps, points mode N q = Some pts /\ primes N = Some ps /\
    primesShown (projected pts ps dotSize width height rotation zoom
                   showAllNumbers perspective) = size ps /\
    Z.of_nat (pointsTotal pts) = N.
Proof.
  intros HN. destruct (points_spec mode N q) as (point & Hpts & Hn).
  destruct (primes_within N) as (l & Hrun & Hnd & Hlen).
  exists (point <$> seqZ 1 N), (list_to_set l).
  split; [done|]. split; [unfold primes; by rewrite Hrun|]. split.
  - rewrite size_list_to_set by done. rewrite <- Hlen.
    rewrite <- (filter_indices_length _ point) by done.
    rewrite <- (primesShown_dots _ dotSize width height rotation zoom
                  showAllNumbers perspective).
    unfold primesShown, projected. rewrite array_sort_perm, visit_foldl. done.
  - unfold pointsTotal. rewrite length_fmap, length_seqZ. lia.
Qed.

Lemma overlay_matches_stats_witness :
  exists pts ps, points spherical 30 (mkParams 0.35 1 0.08 0.8 0.04 0.03 200 6) = Some pts /\
    primes 30 = Some ps /\
    primesShown (projected pts ps 3 800 600 (mkRotation 0 0) 1 false true) = size ps /\
    Z.of_nat (pointsTotal pts) = 30.
Proof. apply (overlay_matches_stats spherical 30); lia. Defined.

(** The density of the statistics is a percentage. *)
Theorem density_percentage (N : Z) :
  1 <= N ->
  exists ps, primes N = Some ps /\ (0 <= density ps N <= 100)%R.
Proof.
  intros HN. destruct (primes_within N) as (l & Hrun & Hnd & Hlen).
  exists (list_to_set l). split; [unfold primes; by rewrite Hrun|].
  unfold density. rewrite size_list_to_set by done.
  assert (0 <= Z.of_nat (length l) <= N) as Hsize.
  { split; [lia|]. rewrite <- Hlen.
    pose proof (length_filter (fun n => n ∈ (list_to_set l : gset Z)) (seqZ 1 N)) as Hf.
    rewrite length_seqZ in Hf. lia. }
  destruct Hsize as [H0 H1]. apply IZR_le in H0, H1, HN.
  assert (0 <= IZR (Z.of_nat (length l)) / IZR N <= 1)%R; [|lra].
  split.
  - apply Rmult_le_reg_r with (IZR N); [lra|].
    unfold Rdiv. rewrite Rmult_assoc, Rinv_l by lra. lra.
  - apply Rmult_le_reg_r with (IZR N); [lra|].
    unfold Rdiv. rewrite Rmult_assoc, Rinv_l by lra. lra.
Qed.

Lemma density_percentage_witness :
  exists ps, primes 100 = Some ps /\ (0 <= density ps 100 <= 100)%R.
Proof. apply (density_percentage 100). lia. Defined.

End Counts.

(** ** The gesture bookkeeping *)

Section Bookkeeping.
Import Projector Interaction Controls.

Lemma map_has_keys (m : PointerMap) (k : Z) : map_has m k = true <-> k ∈ fst <$> m.
Proof.
  induction m as [|[k0 v0] m IH]; simpl.
  - split; [done | by intros ?%elem_of_nil].
  - rewrite orb_true_iff, elem_of_cons, IH, Z.eqb_eq. done.
Qed.

Lemma map_set_keys (m : PointerMap) (k : Z) (v : Pos) :
  fst <$> map_set m k v = if map_has m k then fst <$> m else (fst <$> m) ++ [k].
Proof.
  induction m as [|[k0 v0] m IH]; [done|].
  change (map_has ((k0, v0) :: m) k) with ((k =? k0) || map_has m k).
  change (map_set ((k0, v0) :: m) k v)
    with (if k =? k0 then (k, v) :: m else (k0, v0) :: map_set m k v).
  destruct (Z.eqb_spec k k0) as [->|Hne]; cbn [orb]; [done|].
  rewrite !fmap_cons, IH. by destruct (map_has m k).
Qed.

Lemma map_set_NoDup (m : PointerMap) (k : Z) (v : Pos) :
  NoDup (fst <$> m) -> NoDup (fst <$> map_set m k v).
Proof.
  intros Hnd. rewrite map_set_keys. destruct (map_has m k) eqn:Hhas; [done|].
  apply NoDup_app. split; [done|]. split; [|apply NoDup_singleton].
  intros x Hx ->%list_elem_of_singleton. apply map_has_keys in Hx. congruence.
Qed.

Lemma map_set_size (m : PointerMap) (k : Z) (v : Pos) :
  map_size (map_set m k v) = if map_has m k then map_size m else map_size m + 1.
Proof.
  unfold map_size. destruct (map_has m k) eqn:Hhas.
  - by rewrite map_set_length_has.
  - rewrite map_set_fresh by done. rewrite length_app. simpl. lia.
Qed.

Lemma map_delete_keys (m : PointerMap) (k : Z) :
  fst <$> map_delete m k = filter (fun k' => k <> k') (fst <$> m).
Proof.
  unfold map_delete. induction m as [|[k0 v0] m IH]; [done|].
  rewrite (fmap_cons fst (k0, v0) m), (filter_cons (fun k' => k <> k')).
  rewrite (filter_cons (fun kv : Z * Pos => k <> kv.1)). cbn [fst].
  destruct (decide (k <> k0)); [|exact IH].
  rewrite fmap_cons. cbn [fst]. f_equal. exact IH.
Qed.

Lemma map_delete_size (m : PointerMap) (k : Z) : map_size (map_delete m k) <= map_size m.
Proof.
  unfold map_size, map_delete. apply Nat2Z.inj_le, length_filter.
Qed.

Lemma map_delete_absent (m : PointerMap) (k : Z) :
  map_has m k = false -> map_delete m k = m.
Proof.
  unfold map_delete. induction m as [|[k0 v0] m IH]; [done|].
  change (map_has ((k0, v0) :: m) k) with ((k =? k0) || map_has m k).
  intros [Hk Hm]%orb_false_iff. apply Z.eqb_neq in Hk.
  rewrite (filter_cons (fun kv : Z * Pos => k <> kv.1)). cbn [fst]. rewrite decide_True by done.
  f_equal. by apply IH.
Qed.

Lemma consistent_sizes (s : State) :
  consistent s <->
  NoDup (fst <$> pointers s) /\
  (isDragging s = true <-> 1 <= map_size (pointers s)) /\
  (pinch s <> None -> 2 <= map_size (pointers s)).
Proof.
  unfold consistent.
  assert (pointers s <> [] <-> 1 <= map_size (pointers s)) as ->; [|done].
  unfold map_size. destruct (pointers s); simpl; split; (done || lia).
Qed.

(** What each handler does to the gesture bookkeeping. *)
Lemma onPointerDown_fields (s : State) (i : Z) (c : Pos) :
  let s' := onPointerDown s i c in
  let n := map_size (map_set (pointers s) i c) in
  pointers s' = map_set (pointers s) i c /\
  isDragging s' = (if n =? 1 then true else isDragging s) /\
  (n <> 2 -> pinch s' = pinch s) /\ rotation s' = rotation s /\ zoom s' = zoom s.
Proof.
  unfold onPointerDown. cbv zeta.
  destruct (Z.eqb_spec (map_size (map_set (pointers s) i c)) 1) as [H1|H1]; [done|].
  destruct (Z.eqb_spec (map_size (map_set (pointers s) i c)) 2) as [H2|H2]; [|done].
  destruct (map_values (map_set (pointers s) i c)) as [|a [|b ?]]; done.
Qed.

Lemma onPointerMove_fields (s : State) (i : Z) (c : Pos) :
  let s' := onPointerMove s i c in
  pointers s' = (if map_has (pointers s) i then map_set (pointers s) i c else pointers s) /\
  isDragging s' = isDragging s /\ pinch s' = pinch s.
Proof.
  unfold onPointerMove. cbv zeta.
  destruct (map_has (pointers s) i); [|done]. cbn [negb].
  repeat case_match; done.
Qed.

(** Every handler keeps the bookkeeping consistent. *)
Lemma handle_consistent (s : State) (e : Event) : consistent s -> consistent (handle s e).
Proof.
  rewrite !consistent_sizes. intros (Hnd & Hdrag & Hpinch).
  destruct e as [i c|i c|i|i|d k]; cbn [handle].
  - destruct (onPointerDown_fields s i c) as (-> & -> & Hp & _).
    pose proof (map_set_size (pointers s) i c) as Hsize.
    split; [by apply map_set_NoDup|].
    assert (0 <= map_size (pointers s)) by (unfold map_size; lia).
    split.
    + destruct (Z.eqb_spec (map_size (map_set (pointers s) i c)) 1) as [H1|H1];
        [split; [lia | done]|].
      rewrite Hdrag. destruct (map_has (pointers s) i); lia.
    + destruct (decide (map_size (map_set (pointers s) i c) = 2)) as [H2|H2]; [lia|].
      rewrite (Hp H2). intros Hq. apply Hpinch in Hq.
      destruct (map_has (pointers s) i); lia.
  - destruct (onPointerMove_fields s i c) as (-> & -> & ->).
    destruct (map_has (pointers s) i) eqn:Hhas; [|done].
    pose proof (map_set_size (pointers s) i c) as Hsize. rewrite Hhas in Hsize.
    rewrite Hsize. split; [by apply map_set_NoDup | done].
  - pose proof (map_delete_size (pointers s) i) as Hsize.
    unfold onPointerUp. cbn [pointers isDragging pinch].
    split; [rewrite map_delete_keys; by apply NoDup_filter|]. split.
    + destruct (Z.eqb_spec (map_size (map_delete (pointers s) i)) 0);
        [split; [done | lia]|].
      rewrite Hdrag. unfold map_size in *. lia.
    + destruct (Z.ltb_spec (map_size (map_delete (pointers s) i)) 2); [done | lia].
  - pose proof (map_delete_size (pointers s) i) as Hsize.
    unfold onPointerUp. cbn [pointers isDragging pinch].
    split; [rewrite map_delete_keys; by apply NoDup_filter|]. split.
    + destruct (Z.eqb_spec (map_size (map_delete (pointers s) i)) 0);
        [split; [done | lia]|].
      rewrite Hdrag. unfold map_size in *. lia.
    + destruct (Z.ltb_spec (map_size (map_delete (pointers s) i)) 2); [done | lia].
  - done.
Qed.

Lemma act_consistent (s : State) (a : Action) : consistent s -> consistent (act s a).
Proof. destruct a; simpl; [apply handle_consistent | done ..]. Qed.

Lemma session_consistent (s : State) (actions : list Action) :
  consistent s -> consistent (session s actions).
Proof.
  unfold session. revert s. induction actions as [|a actions IH]; intros s Hs; [done|].
  simpl. by apply IH, act_consistent.
Qed.

Lemma initial_consistent : consistent initial.
Proof. split; [constructor|]. split; [done | done]. Qed.

(** Whatever the user does from a fresh view (events on the view and buttons
    of the control bar, in any order), no pointer id is tracked twice,
    [isDragging] is set exactly while some contact is tracked, and a pinch
    baseline is held only while at least two contacts are tracked. *)
Theorem session_keeps_bookkeeping (actions : list Action) :
  let s := session initial actions in
  NoDup (fst <$> pointers s) /\
  (isDragging s = true <-> pointers s <> []) /\
  (pinch s <> None -> 2 <= map_size (pointers s)).
Proof. exact (session_consistent initial actions initial_consistent). Qed.

End Bookkeeping.

(** ** Gestures from start to end *)

Section Gestures.
Import Projector Interaction Controls.

Lemma run_consistent (s : State) (events : list Event) :
  consistent s -> consistent (run s events).
Proof.
  unfold run. revert s. induction events as [|e events IH]; intros s Hs; [done|].
  simpl. by apply IH, handle_consistent.
Qed.

Lemma run_ups (s : State) (ids : list Z) :
  let s' := run s (PointerUp <$> ids) in
  rotation s' = rotation s /\ zoom s' = zoom s /\
  forall k, k ∈ fst <$> pointers s' -> k ∈ fst <$> pointers s /\ k ∉ ids.
Proof.
  revert s. induction ids as [|i ids IH]; intros s.
  - split; [done|]. split; [done|]. intros k Hk. split; [done | by intros ?%elem_of_nil].
  - destruct (IH (onPointerUp s i)) as (Hrot & Hzoom & Hkeys).
    unfold run in *. rewrite fmap_cons. cbn [foldl handle].
    split; [exact Hrot|]. split; [exact Hzoom|].
    intros k Hk. apply Hkeys in Hk as [Hk Hids].
    unfold onPointerUp in Hk. cbn [pointers] in Hk.
    rewrite map_delete_keys in Hk. apply list_elem_of_filter in Hk as [Hne Hk].
    split; [done|]. intros [->|?]%elem_of_cons; done.
Qed.

(** Once every tracked contact has been lifted or cancelled, in whatever
    order, the view is idle again: no contact, no drag, no pinch baseline; the
    camera is where the gestures left it. *)
Theorem release_all (actions : list Action) (ids : list Z) :
  let s := session initial actions in
  (forall k, k ∈ fst <$> pointers s -> k ∈ ids) ->
  let s' := run s (PointerUp <$> ids) in
  pointers s' = [] /\ isDragging s' = false /\ pinch s' = None /\
  rotation s' = rotation s /\ zoom s' = zoom s.
Proof.
  intros s Hids s'.
  destruct (run_ups s ids) as (Hrot & Hzoom & Hkeys). fold s' in Hrot, Hzoom, Hkeys.
  assert (consistent s') as Hs'
    by apply run_consistent, session_consistent, initial_consistent.
  apply consistent_sizes in Hs' as (_ & Hdrag & Hpinch).
  assert (pointers s' = []) as Hnil.
  { destruct (pointers s') as [|[k v] m]; [done|]. exfalso.
    destruct (Hkeys k) as [Hk Hnot]; [rewrite fmap_cons; apply elem_of_cons; by left|].
    by apply Hnot, Hids. }
  rewrite Hnil in Hdrag, Hpinch. unfold map_size in *. simpl in *.
  split; [done|]. split; [|split; [|done]].
  - destruct (isDragging s'); [|done]. assert (1 <= 0) by by apply Hdrag. lia.
  - destruct (pinch s'); [|done]. assert (2 <= 0) by by apply Hpinch. lia.
Qed.

Lemma release_all_witness :
  let s := session initial
             [OnView (PointerDown 1 (mkPos 0 0)); OnView (PointerDown 2 (mkPos 100 0));
              ZoomInButton; OnView (PointerMove 2 (mkPos 150 0))] in
  let s' := run s (PointerUp <$> [2; 7; 1]) in
  pointers s' = [] /\ isDragging s' = false /\ pinch s' = None /\
  rotation s' = rotation s /\ zoom s' = zoom s.
Proof.
  apply (release_all
           [OnView (PointerDown 1 (mkPos 0 0)); OnView (PointerDown 2 (mkPos 100 0));
            ZoomInButton; OnView (PointerMove 2 (mkPos 150 0))] [2; 7; 1]).
  intros k Hk. simpl in Hk. rewrite !elem_of_cons in Hk. rewrite !elem_of_cons. tauto.
Defined.

(** Events of a pointer that is not tracked (it never went down on the view,
    or has been lifted already) change nothing. *)
Theorem stray_pointer_ignored (actions : list Action) (id : Z) (client : Pos) :
  let s := session initial actions in
  map_has (pointers s) id = false ->
  handle s (PointerMove id client) = s /\
  handle s (PointerUp id) = s /\ handle s (PointerCancel id) = s.
Proof.
  intros s Hhas.
  assert (consistent s) as Hs by apply session_consistent, initial_consistent.
  apply consistent_sizes in Hs as (_ & Hdrag & Hpinch).
  assert (onPointerUp s id = s) as Hup.
  { unfold onPointerUp. rewrite (map_delete_absent _ _ Hhas).
    destruct (Z.eqb_spec (map_size (pointers s)) 0) as [H0|H0];
      destruct (Z.ltb_spec (map_size (pointers s)) 2) as [H2|H2];
      destruct s as [r z d lp ps pn]; cbn [pointers isDragging pinch] in *;
      f_equal; try lia.
    - destruct d; [|done]. assert (1 <= map_size ps) by by apply Hdrag. lia.
    - destruct pn; [|done]. assert (2 <= map_size ps) by by apply Hpinch. lia.
    - destruct pn; [|done]. assert (2 <= map_size ps) by by apply Hpinch. lia. }
  cbn [handle]. split; [|done].
  unfold onPointerMove. by rewrite Hhas.
Qed.

Lemma stray_pointer_ignored_witness :
  let s := session initial [OnView (PointerDown 1 (mkPos 0 0))] in
  handle s (PointerMove 5 (mkPos 9 9)) = s /\
  handle s (PointerUp 5) = s /\ handle s (PointerCancel 5) = s.
Proof.
  apply (stray_pointer_ignored [OnView (PointerDown 1 (mkPos 0 0))] 5 (mkPos 9 9)).
  reflexivity.
Defined.

Lemma drag_path_total (s : State) (id : Z) (prev : Pos) (path : list Pos) :
  pointers s = [(id, prev)] -> isDragging s = true -> lastPos s = prev ->
  let s' := run s (PointerMove id <$> path) in
  let finish := List.last path prev in
  rot_x (rotation s') = (rot_x (rotation s) + (pos_y finish - pos_y prev) * 0.01)%R /\
  rot_y (rotation s') = (rot_y (rotation s) + (pos_x finish - pos_x prev) * 0.01)%R /\
  zoom s' = zoom s.
Proof.
  revert s prev. induction path as [|q path IH]; intros s prev Hptr Hdrag Hlast.
  - simpl. split; [lra|]. split; [lra | done].
  - cbv zeta. rewrite last_cons_default.
    unfold run. rewrite fmap_cons. cbn [foldl handle].
    rewrite (drag_step s id prev q Hptr Hdrag).
    set (t := {| rotation := _ |}).
    destruct (IH t q) as (Hx & Hy & Hz); [done | done | done |].
    unfold run in Hx, Hy, Hz. rewrite Hx, Hy, Hz. unfold t. cbn [rotation rot_x rot_y zoom].
    rewrite Hlast. split; [lra|]. split; [lra | done].
Qed.

(** A drag turns the view by the offset between where the pointer went down
    and where it is now, whatever path it took in between: [dy * 0.01] about
    X and [dx * 0.01] about Y.  The zoom is untouched. *)
Theorem drag_depends_on_endpoints (s0 : State) (id : Z) (start : Pos) (path : list Pos) :
  pointers s0 = [] ->
  let s := run s0 (PointerDown id start :: (PointerMove id <$> path)) in
  let finish := List.last path start in
  rot_x (rotation s) = (rot_x (rotation s0) + (pos_y finish - pos_y start) * 0.01)%R /\
  rot_y (rotation s) = (rot_y (rotation s0) + (pos_x finish - pos_x start) * 0.01)%R /\
  zoom s = zoom s0.
Proof.
  intros Hidle s finish.
  destruct (drag_path_total (onPointerDown s0 id start) id start path)
    as (Hx & Hy & Hz); try (unfold onPointerDown; by rewrite Hidle).
  unfold s, finish, run in *. cbn [foldl handle].
  rewrite Hx, Hy, Hz. unfold onPointerDown. rewrite Hidle. done.
Qed.

Lemma drag_depends_on_endpoints_witness :
  let s := run initial (PointerDown 1 (mkPos 5 5) ::
                        (PointerMove 1 <$> [mkPos 50 7; mkPos (-3) 90; mkPos 5 5])) in
  rot_x (rotation s) = (0 + (5 - 5) * 0.01)%R /\
  rot_y (rotation s) = (0 + (5 - 5) * 0.01)%R /\
  zoom s = 1%R.
Proof.
  apply (drag_depends_on_endpoints initial 1 (mkPos 5 5)
           [mkPos 50 7; mkPos (-3) 90; mkPos 5 5]).
  reflexivity.
Defined.

(** The zoom of a pinch, from the baseline taken when the second contact
    began. *)
Lemma pinch_trace (s1 : State) (id2 : Z) (c2 : Pos) (moves : list (Z * Pos))
    (id : Z) (client : Pos) :
  map_size (pointers s1) = 1 -> map_has (pointers s1) id2 = false ->
  let s2 := onPointerDown s1 id2 c2 in
  Forall (fun m => map_has (pointers s2) m.1 = true) moves ->
  map_has (pointers s2) id = true ->
  let s' := onPointerMove (run s2 (uncurry PointerMove <$> moves)) id client in
  zoom s' = clamp (zoom s1 * (contactDistance (pointers s') /
                              Rmax 1 (contactDistance (pointers s2)))) 0.1 5.
Proof.
  intros Hsize Hfresh s2 Hmoves Hid s'.
  pose proof (pinch_start s1 id2 c2 Hsize Hfresh) as Hs2. fold s2 in Hs2.
  set (base := {| startDist := contactDistance (pointers s2); startZoom := zoom s1 |}).
  assert (map_size (pointers s2) = 2) as Hsize2.
  { rewrite Hs2. unfold map_size in *. simpl. rewrite length_app. simpl. lia. }
  assert (pinch s2 = Some base) as Hpinch2.
  { unfold base. rewrite Hs2 at 1. simpl. by rewrite Hs2. }
  destruct (pinch_path s2 base moves Hsize2 Hpinch2 Hmoves)
    as (Hsize' & Hpinch' & _ & Hkeys).
  unfold s'. rewrite (pinch_step _ id client base); [done|done| |done].
  by rewrite Hkeys.
Qed.

(** A pinch is relative to its start: when the two contacts, begun at least
    one pixel apart, are back at their starting distance, the zoom is back at
    its starting value. *)
Theorem pinch_returns (s1 : State) (id2 : Z) (c2 : Pos) (moves : list (Z * Pos))
    (id : Z) (client : Pos) :
  map_size (pointers s1) = 1 -> map_has (pointers s1) id2 = false ->
  (0.1 <= zoom s1 <= 5)%R ->
  let s2 := onPointerDown s1 id2 c2 in
  Forall (fun m => map_has (pointers s2) m.1 = true) moves ->
  map_has (pointers s2) id = true ->
  (1 <= contactDistance (pointers s2))%R ->
  let s' := onPointerMove (run s2 (uncurry PointerMove <$> moves)) id client in
  contactDistance (pointers s') = contactDistance (pointers s2) ->
  zoom s' = zoom s1.
Proof.
  intros Hsize Hfresh Hzoom s2 Hmoves Hid Hfar s' Hback.
  assert (zoom s' = clamp (zoom s1 * (contactDistance (pointers s') /
                                      Rmax 1 (contactDistance (pointers s2)))) 0.1 5)
    as -> by exact (pinch_trace s1 id2 c2 moves id client Hsize Hfresh Hmoves Hid).
  rewrite Hback. rewrite Rmax_right by done.
  replace (zoom s1 * (contactDistance (pointers s2) / contactDistance (pointers s2)))%R
    with (zoom s1) by (field; lra).
  by apply clamp_inside.
Qed.

Lemma pinch_returns_witness :
  let s2 := run initial [PointerDown 1 (mkPos 0 0); PointerDown 2 (mkPos 100 0)] in
  let s' := run s2 [PointerMove 2 (mkPos 300 0); PointerMove 2 (mkPos 100 0)] in
  zoom s' = 1%R.
Proof.
  assert (hypot (0 - 100) (0 - 0) = 100)%R as Hd.
  { replace (0 - 0)%R with 0%R by lra. rewrite hypot_horizontal.
    rewrite Rabs_left by lra. lra. }
  apply (pinch_returns (onPointerDown initial 1 (mkPos 0 0)) 2 (mkPos 100 0)
           [(2, mkPos 300 0)] 2 (mkPos 100 0)).
  - reflexivity.
  - reflexivity.
  - simpl. lra.
  - repeat constructor.
  - reflexivity.
  - unfold contactDistance. simpl. rewrite Hd. lra.
  - reflexivity.
Defined.

(** A reset does not end a pinch in progress: the next move of a contact sets
    the zoom from the baseline taken before the reset, exactly as if there had
    been no reset; only the rotation stays reset. *)
Theorem reset_keeps_pinch (s : State) (id : Z) (client : Pos) (base : Pinch) :
  map_size (pointers s) = 2 -> map_has (pointers s) id = true -> pinch s = Some base ->
  let s' := onPointerMove (resetView s) id client in
  zoom s' = zoom (onPointerMove s id client) /\
  rotation s' = mkRotation 0 0 /\ pinch s' = Some base.
Proof.
  intros Hsize Hhas Hpinch s'. unfold s'.
  rewrite (pinch_step (resetView s) id client base) by done.
  rewrite (pinch_step s id client base) by done. done.
Qed.

Lemma reset_keeps_pinch_witness :
  let s := run initial [PointerDown 1 (mkPos 0 0); PointerDown 2 (mkPos 100 0);
                        PointerMove 2 (mkPos 200 0)] in
  zoom (onPointerMove (resetView s) 2 (mkPos 201 0)) =
  zoom (onPointerMove s 2 (mkPos 201 0)).
Proof.
  eapply (reset_keeps_pinch _ 2 (mkPos 201 0)); reflexivity.
Defined.

End Gestures.

(** ** The control bar, the wheel and the animation clock *)

Section ControlBar.
Import Projector Interaction Controls Animation.

Lemma act_zoom (s : State) (a : Action) :
  (0.1 <= zoom s <= 5)%R -> (0.1 <= zoom (act s a) <= 5)%R.
Proof.
  intros Hs. destruct a; simpl; try done.
  - destruct (handle_zoom s e) as [->|Hrange]; done.
  - unfold ZOOM_STEP. split; [apply Rmin_glb; lra | apply Rmin_l].
  - unfold ZOOM_STEP. split; [apply Rmax_l | apply Rmax_lub; lra].
  - lra.
Qed.

(** Whatever the user does (events on the view, the zoom and rotate buttons,
    reset, in any order), a zoom that is within [[0.1, 5]] stays there. *)
Theorem session_zoom_range (s : State) (actions : list Action) :
  (0.1 <= zoom s <= 5)%R -> (0.1 <= zoom (session s actions) <= 5)%R.
Proof.
  unfold session. revert s. induction actions as [|a actions IH]; intros s Hs; [done|].
  simpl. by apply IH, act_zoom.
Qed.

Lemma session_zoom_range_witness :
  (0.1 <= zoom (session initial
     [ZoomInButton; ZoomInButton; OnView (Wheel (-9000) true); ZoomInButton;
      ResetButton; ZoomOutButton; OnView (Wheel 5000 false); ZoomOutButton]) <= 5)%R.
Proof. apply session_zoom_range. simpl. lra. Defined.

(** The left and right buttons, and the up and down buttons, always undo
    each other; away from the two ends of the zoom range the zoom buttons do
    too. *)
Theorem buttons_undo (s : State) :
  rotateRight (rotateLeft s) = s /\ rotateLeft (rotateRight s) = s /\
  rotateDown (rotateUp s) = s /\ rotateUp (rotateDown s) = s /\
  ((0.25 <= zoom s <= 4.85)%R ->
   zoomOut (zoomIn s) = s /\ zoomIn (zoomOut s) = s).
Proof.
  destruct s as [[rx ry] z d lp ps pn].
  unfold zoomOut, zoomIn, rotateRight, rotateLeft, rotateDown, rotateUp,
    withZoom, withRotation, ZOOM_STEP, ROT_STEP.
  cbn [rotation zoom isDragging lastPos pointers pinch rot_x rot_y].
  split; [f_equal; f_equal; lra|]. split; [f_equal; f_equal; lra|].
  split; [f_equal; f_equal; lra|]. split; [f_equal; f_equal; lra|].
  intros Hz. split; f_equal.
  - rewrite (Rmin_right 5 (z + 0.15)) by lra. rewrite Rmax_right by lra. lra.
  - rewrite (Rmax_right 0.1 (z - 0.15)) by lra. rewrite Rmin_right by lra. lra.
Qed.

Lemma buttons_undo_witness :
  zoomOut (zoomIn initial) = initial /\ zoomIn (zoomOut initial) = initial.
Proof.
  destruct (buttons_undo initial) as (_ & _ & _ & _ & Hzoom).
  apply Hzoom. simpl. lra.
Defined.

(** Scrolling up ([deltaY <= 0]) never zooms out and scrolling down never
    zooms in; the wheel touches neither the rotation nor the gesture
    bookkeeping. *)
Theorem wheel_direction (s : State) (deltaY : R) (ctrlKey : bool) :
  (0.1 <= zoom s <= 5)%R ->
  let s' := onWheel s deltaY ctrlKey in
  ((deltaY <= 0)%R -> (zoom s <= zoom s')%R) /\
  ((0 <= deltaY)%R -> (zoom s' <= zoom s)%R) /\
  rotation s' = rotation s /\ pointers s' = pointers s /\ pinch s' = pinch s /\
  isDragging s' = isDragging s /\ lastPos s' = lastPos s.
Proof.
  intros Hz s'. unfold s', onWheel. cbn [zoom rotation pointers pinch isDragging lastPos].
  set (k := if ctrlKey then 0.0025%R else 0.001%R).
  assert (0 < k)%R as Hk by (unfold k; destruct ctrlKey; lra).
  split; [|split; [|done]].
  - intros Hd. assert (zoom s <= zoom s + - deltaY * k)%R by nra.
    eapply Rle_trans; [|apply Rmax_r]. apply Rmin_glb; lra.
  - intros Hd. assert (zoom s + - deltaY * k <= zoom s)%R by nra.
    apply Rmax_lub; [lra|]. eapply Rle_trans; [apply Rmin_r | done].
Qed.

Lemma wheel_direction_witness :
  (zoom initial <= zoom (onWheel initial (-120) false))%R.
Proof.
  destruct (wheel_direction initial (-120) false) as (Hup & _); [simpl; lra|].
  apply Hup. lra.
Defined.

(** The rotation the animation adds over a run of frames. *)
Lemma frames_advance (isAnimating : bool) (animationSpeed : R) (ts : list R)
    (last : R) (rotation : Rotation) :
  (0 <= animationSpeed)%R -> Sorted Rle (last :: ts) ->
  let clock := frames isAnimating animationSpeed (last, rotation) ts in
  (last <= clock.1)%R /\
  clock.1 = List.last ts last /\
  (isAnimating = false -> clock.2 = rotation) /\
  (0 <= rot_x clock.2 - rot_x rotation <= 0.001 * animationSpeed * (clock.1 - last))%R /\
  (rot_x clock.2 - rot_x rotation <= 0.032 * animationSpeed * INR (length ts))%R /\
  (rot_y clock.2 - rot_y rotation = (rot_x clock.2 - rot_x rotation) / 2)%R.
Proof.
  intros Hspeed. revert last rotation.
  induction ts as [|t ts IH]; intros last rotation Hsorted.
  - simpl. split; [lra|]. split; [done|]. split; [done|]. split; [lra|]. split; lra.
  - cbv zeta. rewrite last_cons_default. unfold frames. cbn [foldl].
    apply Sorted_inv in Hsorted as [Hsorted Hhd]. apply HdRel_inv in Hhd.
    set (rotation' := (tick isAnimating animationSpeed (last, rotation) t).2).
    assert (tick isAnimating animationSpeed (last, rotation) t = (t, rotation')) as ->
      by done.
    destruct (IH t rotation' Hsorted) as (Hafter & Hlast & Hstill & Hx & Hcap & Hy).
    unfold frames in Hafter, Hlast, Hstill, Hx, Hcap, Hy.
    set (clock := foldl _ _ _) in *.
    assert (0 <= Rmin 32 (t - last) <= t - last)%R as Hdt
      by (split; [apply Rmin_glb; lra | apply Rmin_r]).
    assert (Rmin 32 (t - last) <= 32)%R as Hdt32 by apply Rmin_l.
    assert (isAnimating = false -> rotation' = rotation) as Hstill'
      by (intros ->; done).
    assert (0 <= rot_x rotation' - rot_x rotation <= 0.001 * animationSpeed * (t - last) /\
            rot_x rotation' - rot_x rotation <= 0.032 * animationSpeed /\
            rot_y rotation' - rot_y rotation = (rot_x rotation' - rot_x rotation) / 2)%R
      as (Hx' & Hcap' & Hy').
    { unfold rotation', tick. cbn [snd]. destruct isAnimating; cbn [rot_x rot_y].
      - split; [|split]; nra.
      - split; [|split]; nra. }
    split; [lra|]. split; [done|].
    split; [intros H; rewrite Hstill by done; by apply Hstill'|].
    assert (INR (length (t :: ts)) = INR (length ts) + 1)%R as ->
      by (cbn [length]; apply S_INR).
    split; [|split]; nra.
Qed.

(** The animation never runs ahead of the clock.  Over frames at
    non-decreasing times, with a speed that is not negative, the rotation about
    X grows by at most [0.001 * speed] per millisecond elapsed and by at most
    [0.032 * speed] per frame, the rotation about Y by half as much, and with
    the animation off the rotation does not change. *)
Theorem frames_bounded (isAnimating : bool) (animationSpeed : R) (ts : list R)
    (last : R) (rotation : Rotation) :
  (0 <= animationSpeed)%R -> Sorted Rle (last :: ts) ->
  let clock := frames isAnimating animationSpeed (last, rotation) ts in
  clock.1 = List.last ts last /\
  (isAnimating = false -> clock.2 = rotation) /\
  (0 <= rot_x clock.2 - rot_x rotation <= 0.001 * animationSpeed * (clock.1 - last))%R /\
  (rot_x clock.2 - rot_x rotation <= 0.032 * animationSpeed * INR (length ts))%R /\
  (rot_y clock.2 - rot_y rotation = (rot_x clock.2 - rot_x rotation) / 2)%R.
Proof.
  intros Hspeed Hsorted clock.
  destruct (frames_advance isAnimating animationSpeed ts last rotation Hspeed Hsorted)
    as (_ & H). exact H.
Qed.

Lemma frames_bounded_witness :
  let clock := frames true 1 (0%R, mkRotation 0 0) [16%R; 33%R; 400%R] in
  (0 <= rot_x clock.2 - 0 <= 0.001 * 1 * (clock.1 - 0))%R.
Proof.
  destruct (frames_bounded true 1 [16%R; 33%R; 400%R] 0%R (mkRotation 0 0))
    as (_ & _ & Hx & _).
  - lra.
  - repeat constructor; lra.
  - exact Hx.
Defined.

End ControlBar.
